(** * fix_calendar_permissions.py: the calendar-permission patcher

    A shallow embedding of [add_calendar_permissions] and [main] of
    [fix_calendar_permissions.py], and the properties of the patch it
    applies to an Xcode project file.

    - Text (a Python [str]) is a list of characters, here of the 8-bit
      characters of [ascii]; the expression and the inserted keys are
      ASCII, and the negated class accepts every other character.
    - [re.sub] is modelled by a backtracking matcher for the fragment of
      regular expressions the script uses (literals and a greedy negated
      character class) and a left-to-right scan over non-overlapping
      matches that calls the replacement callback on each one.
    - The file system is a finite map from paths to the bytes of regular
      files; the script runs in a small state-and-exception monad over it
      that also records every effect in a trace. *)

From Stdlib Require Import Ascii String.
From stdpp Require Import gmap strings list pretty.

Local Open Scope string_scope.
Local Open Scope list_scope.
Local Open Scope nat_scope.

(** ** Text *)

Abbreviation text := (list ascii) (only parsing).

Definition T (s : string) : text := list_ascii_of_string s.

Definition dq : ascii := "034"%char.   (* the double quote *)
Definition nl : ascii := "010"%char.   (* line feed, '\n' *)
Definition tab : ascii := "009"%char.  (* '\t' *)

(** ** Regular expressions: the fragment used by the script *)

Inductive atom :=
| Lit (l : text)              (* a literal string *)
| NotCharPlus (c : ascii).    (* [^c]+ , greedy *)

(** A regular expression is a sequence of atoms.  The script wraps its
    whole expression in one capturing group, so group 1 of a match is the
    whole matched text. *)
Definition regex := list atom.

(** Result of matching at the start of a text: the matched text and
    what follows it. *)
Definition cont := text → option (text * text).

Fixpoint strip_prefix (l s : text) : option text :=
  match l, s with
  | [], _ => Some s
  | _ :: _, [] => None
  | a :: l', b :: s' => if Ascii.eqb a b then strip_prefix l' s' else None
  end.

(** [[^c]*] followed by the rest of the expression [k]: take as many
    characters as possible, and give them back one at a time while the
    rest of the expression fails. *)
Fixpoint greedy_star (c : ascii) (k : cont) (s : text) : option (text * text) :=
  match s with
  | [] => k []
  | x :: s' =>
      if Ascii.eqb x c then k s
      else match greedy_star c k s' with
           | Some (m, r) => Some (x :: m, r)
           | None => k s
           end
  end.

Definition greedy_plus (c : ascii) (k : cont) (s : text) : option (text * text) :=
  match s with
  | [] => None
  | x :: s' =>
      if Ascii.eqb x c then None
      else match greedy_star c k s' with
           | Some (m, r) => Some (x :: m, r)
           | None => None
           end
  end.

Fixpoint match_here (p : regex) (s : text) : option (text * text) :=
  match p with
  | [] => Some ([], s)
  | Lit l :: p' =>
      match strip_prefix l s with
      | Some s' =>
          match match_here p' s' with
          | Some (m, r) => Some (l ++ m, r)
          | None => None
          end
      | None => None
      end
  | NotCharPlus c :: p' => greedy_plus c (match_here p') s
  end.

(** [re.sub(pattern, repl, string)] with a callable [repl]: scan the text
    from left to right; where the expression matches, call [repl] on the
    match and go on after it; elsewhere copy one character.  The callback
    may update a state of type [St] (the script's [nonlocal] counter).
    The loop consumes at least one character per round for expressions
    that match no empty text, which is the case of the script's; [fuel]
    bounds the number of rounds. *)
Fixpoint re_sub_loop {St : Type} (fuel : nat) (p : regex)
    (repl : text → St → text * St) (s : text) (st : St) : text * St :=
  match fuel with
  | O => (s, st)
  | S fuel' =>
      match s with
      | [] => ([], st)
      | c :: s' =>
          match match_here p s with
          | Some (m, r) =>
              let '(o, st1) := repl m st in
              let '(out, st2) := re_sub_loop fuel' p repl r st1 in
              (o ++ out, st2)
          | None =>
              let '(out, st2) := re_sub_loop fuel' p repl s' st in
              (c :: out, st2)
          end
      end
  end.

Definition re_sub {St : Type} (p : regex) (repl : text → St → text * St)
    (s : text) (st : St) : text * St :=
  re_sub_loop (length s) p repl s st.

(** ** The patch of [add_calendar_permissions] *)

Definition calendar_usage_desc : text :=
  T "This app needs access to your calendar to import events for tracking and visualization.".

Definition calendar_full_access_desc : text :=
  T "This app needs full access to your calendar to import events for tracking and visualization.".

Definition calendar_keys : text :=
  [tab; tab; tab; tab] ++ T "INFOPLIST_KEY_NSCalendarsUsageDescription = "
    ++ [dq] ++ calendar_usage_desc ++ [dq] ++ T ";" ++ [nl]
  ++ [tab; tab; tab; tab] ++ T "INFOPLIST_KEY_NSCalendarsFullAccessUsageDescription = "
    ++ [dq] ++ calendar_full_access_desc ++ [dq] ++ T ";".

Definition marker_key : text :=
  T "INFOPLIST_KEY_UISupportedInterfaceOrientations_iPhone = ".

(** The script's expression: the key and an equals sign, then a quoted
    value of at least one character other than the double quote
    (written [^q]+ with q the double quote), then a semicolon. *)
Definition pattern : regex :=
  [Lit (marker_key ++ [dq]); NotCharPlus dq; Lit [dq; ";"%char]].

(** The callback: count the match, and return group 1 followed by a line
    feed and the two keys. *)
Definition replace_func (m : text) (replacements : nat) : text * nat :=
  (m ++ [nl] ++ calendar_keys, S replacements).

(** The text part of the function: the substitution, started with the
    counter at 0.  Returns [modified_content] and [replacements]. *)
Definition patch (content : text) : text * nat :=
  re_sub pattern replace_func content 0.

(** ** Files, effects and exceptions *)

Inductive exn :=
| FileNotFoundError
| SameFileError
| UnicodeDecodeError
| UnicodeEncodeError.

(** What the script does to its environment, in order. *)
Inductive event :=
| Copied (src dst : string)              (* shutil.copy2(src, dst) *)
| Truncated (p : string)                 (* open(p, 'w') *)
| Wrote (p : string) (b : list Byte.byte)     (* f.write(...) and close *)
| Printed (msg : string).                (* print(msg) *)

Record world := World {
  files : gmap string (list Byte.byte);       (* the regular files, by path *)
  trace : list event                     (* the effects so far, oldest first *)
}.

Inductive outcome (A : Type) :=
| Ret (a : A)
| Raise (e : exn).
Arguments Ret {A} a.
Arguments Raise {A} e.

Definition IO (A : Type) := world → outcome A * world.

Definition ret {A} (a : A) : IO A := fun w => (Ret a, w).

Definition raise {A} (e : exn) : IO A := fun w => (Raise e, w).

Definition bind {A B} (c : IO A) (k : A → IO B) : IO B :=
  fun w =>
    match c w with
    | (Ret a, w') => k a w'
    | (Raise e, w') => (Raise e, w')
    end.

Notation "'let*' x ':=' c 'in' k" := (bind c (fun x => k))
  (at level 10, x name, c at level 100, k at level 200).
Notation "c ';;' k" := (bind c (fun _ => k))
  (at level 100, k at level 200, right associativity).

Definition emit (e : event) (w : world) : world :=
  World (files w) (trace w ++ [e]).

Definition store (p : string) (b : list Byte.byte) (w : world) : world :=
  World (<[p := b]> (files w)) (trace w).

Definition print (msg : string) : IO unit :=
  fun w => (Ret tt, emit (Printed msg) w).

(** [Path.exists()] *)
Definition path_exists (p : string) : IO bool :=
  fun w => (Ret (bool_decide (is_Some (files w !! p))), w).

(** [shutil.copy2(src, dst)]: the bytes of [src] become the content of
    [dst], which is created or overwritten. *)
Definition copy2 (src dst : string) : IO unit :=
  fun w =>
    match files w !! src with
    | None => (Raise FileNotFoundError, w)
    | Some b =>
        if bool_decide (src = dst) then (Raise SameFileError, w)
        else (Ret tt, emit (Copied src dst) (store dst b w))
    end.

Section Script.

(** The text layer of [open]: how the bytes of a file are read as text
    and how text is written as bytes (the platform's encoding and its
    newline translation).  Either direction can fail. *)
Variable decode : list Byte.byte → option text.
Variable encode : text → option (list Byte.byte).

(** [with open(p, 'r') as f: f.read()] *)
Definition read_text (p : string) : IO text :=
  fun w =>
    match files w !! p with
    | None => (Raise FileNotFoundError, w)
    | Some b =>
        match decode b with
        | Some t => (Ret t, w)
        | None => (Raise UnicodeDecodeError, w)
        end
    end.

(** [with open(p, 'w') as f: f.write(t)]: opening truncates the file. *)
Definition write_text (p : string) (t : text) : IO unit :=
  fun w =>
    let w1 := emit (Truncated p) (store p [] w) in
    match encode t with
    | Some b => (Ret tt, emit (Wrote p b) (store p b w1))
    | None => (Raise UnicodeEncodeError, w1)
    end.

Definition add_calendar_permissions (project_file_path : string) : IO bool :=
  let backup_path := project_file_path +:+ ".backup" in
  copy2 project_file_path backup_path ;;
  print ("✓ Created backup at: " +:+ backup_path) ;;
  let* content := read_text project_file_path in
  let '(modified_content, replacements) := patch content in
  if Nat.eqb replacements 0 then
    print "❌ Could not find the expected pattern in the project file." ;;
    print "   The project structure might be different than expected." ;;
    ret false
  else
    write_text project_file_path modified_content ;;
    print ("✓ Added calendar permissions to " +:+ pretty replacements
           +:+ " build configuration(s)") ;;
    print (String nl "📝 Added keys:") ;;
    print "   - NSCalendarsUsageDescription" ;;
    print "   - NSCalendarsFullAccessUsageDescription" ;;
    ret true.

Definition project_path : string := "trendy.xcodeproj/project.pbxproj".

Definition main : IO Z :=
  print ("🔧 Fixing Calendar Permissions for Trendy App" +:+ String nl "") ;;
  let* found := path_exists project_path in
  if negb found then
    print ("❌ Error: Could not find " +:+ project_path) ;;
    print "   Please run this script from the project root directory." ;;
    ret 1%Z
  else
    let* ok := add_calendar_permissions project_path in
    if ok then
      print (String nl "✅ Success! Calendar permissions have been added to the project.") ;;
      print (String nl "📋 Next steps:") ;;
      print "   1. Open trendy.xcodeproj in Xcode" ;;
      print "   2. Clean the build folder (Cmd+Shift+K)" ;;
      print "   3. Build and run the app" ;;
      print "   4. The calendar permission dialog should now appear when importing events" ;;
      print (String nl "💡 Tip: If you still don't see the permission dialog:") ;;
      print "   - Delete the app from the simulator/device" ;;
      print "   - Clean build folder again" ;;
      print "   - Rebuild and reinstall the app" ;;
      ret 0%Z
    else
      print (String nl "❌ Failed to add calendar permissions.") ;;
      print "   The backup file has been preserved." ;;
      ret 1%Z.

(** [exit(main())]: the exit status is the value [main] returns; an
    exception that reaches the top level ends the process with
    status 1. *)
Definition exit_status (o : outcome Z) : Z :=
  match o with
  | Ret n => n
  | Raise _ => 1%Z
  end.

Definition run_script (w : world) : Z * world :=
  let '(o, w') := main w in (exit_status o, w').

End Script.

(** ** Notions the properties are stated with *)

(** The texts the script's expression stands for: the key, an equals sign
    and a quoted, non-empty value without a double quote, then a
    semicolon. *)
Definition is_anchor (m : text) : Prop :=
  ∃ v, v ≠ [] ∧ (dq ∉ v) ∧ m = marker_key ++ [dq] ++ v ++ [dq; ";"%char].

(** The same statement with an empty value. *)
Definition empty_anchor : text := marker_key ++ [dq; dq; ";"%char].

(** The statement of the portrait-only scenario. *)
Definition portrait_line : text :=
  marker_key ++ [dq] ++ T "UIInterfaceOrientationPortrait" ++ [dq; ";"%char].

(** What is added after a match: a line feed and the two keys. *)
Definition insertion : text := [nl] ++ calendar_keys.

(** The two statement lines of [calendar_keys]. *)
Definition usage_line : text :=
  [tab; tab; tab; tab] ++ T "INFOPLIST_KEY_NSCalendarsUsageDescription = "
    ++ [dq] ++ T "This app needs access to your calendar to import events for tracking and visualization." ++ [dq; ";"%char].

Definition full_access_line : text :=
  [tab; tab; tab; tab] ++ T "INFOPLIST_KEY_NSCalendarsFullAccessUsageDescription = "
    ++ [dq] ++ T "This app needs full access to your calendar to import events for tracking and visualization." ++ [dq; ";"%char].

(** The way the scan cuts a text: characters it copies and matches it
    hands to the callback. *)
Inductive piece :=
| Gap (c : ascii)
| Hit (m : text).

Fixpoint scan_loop (fuel : nat) (s : text) : list piece :=
  match fuel with
  | O => Gap <$> s
  | S fuel' =>
      match s with
      | [] => []
      | c :: s' =>
          match match_here pattern s with
          | Some (m, r) => Hit m :: scan_loop fuel' r
          | None => Gap c :: scan_loop fuel' s'
          end
      end
  end.

Definition scan (s : text) : list piece := scan_loop (length s) s.

Fixpoint locate (pos : nat) (ps : list piece) : list (nat * text) :=
  match ps with
  | [] => []
  | Gap _ :: ps' => locate (S pos) ps'
  | Hit m :: ps' => (pos, m) :: locate (pos + length m) ps'
  end.

(** The non-overlapping occurrences of the expression in a text, from
    left to right, as [re.finditer] lists them: each with the offset at
    which it starts. *)
Definition occurrences (s : text) : list (nat * text) := locate 0 (scan s).

(** The pieces written out, with [r] added after every match. *)
Fixpoint splice (r : text) (ps : list piece) : text :=
  match ps with
  | [] => []
  | Gap c :: ps' => c :: splice r ps'
  | Hit m :: ps' => m ++ r ++ splice r ps'
  end.

Fixpoint hits (ps : list piece) : nat :=
  match ps with
  | [] => 0
  | Gap _ :: ps' => hits ps'
  | Hit _ :: ps' => S (hits ps')
  end.

(** [m] is the part of [s] that starts at offset [i]. *)
Definition occurs_at (m : text) (i : nat) (s : text) : Prop :=
  take (length m) (drop i s) = m.

(** The number of occurrences that end at or before offset [i]. *)
Definition ended_before (occ : list (nat * text)) (i : nat) : nat :=
  length (filter (λ o, (o.1 + length o.2 ≤ i)%nat) occ).

(** Where the character at offset [i] of the input is in the output of
    a substitution that adds [len] characters after every match. *)
Definition new_index (len : nat) (s : text) (i : nat) : nat :=
  i + len * ended_before (occurrences s) i.

(** Indentation: the blanks a line starts with. *)
Definition is_blank (c : ascii) : bool :=
  Ascii.eqb c " "%char || Ascii.eqb c tab.

Fixpoint indent_of (l : text) : text :=
  match l with
  | c :: l' => if is_blank c then c :: indent_of l' else []
  | [] => []
  end.

(** The text after the last line feed of [s], after [cur]. *)
Fixpoint last_line (cur s : text) : text :=
  match s with
  | [] => cur
  | c :: s' => if Ascii.eqb c nl then last_line [] s' else last_line (cur ++ [c]) s'
  end.

(** The indentation of the line of [s] that holds offset [i]. *)
Definition line_indent (s : text) (i : nat) : text :=
  indent_of (last_line [] (take i s) ++ drop i s).

(** A codec for the examples: one character per byte. *)
Definition latin1_decode (b : list Byte.byte) : option text :=
  Some (ascii_of_byte <$> b).

Definition latin1_encode (t : text) : option (list Byte.byte) :=
  Some (byte_of_ascii <$> t).

(** A world with the project file holding [t], and nothing else. *)
Definition project_world (t : text) : world :=
  World {[ project_path := byte_of_ascii <$> t ]} [].

(** A build-settings block of a project file with the portrait line:
    the text before the line, the line, and the text after it. *)
Definition block_head : text :=
  [tab; tab; tab] ++ T "buildSettings = {" ++ [nl] ++ [tab; tab; tab; tab].

Definition block_tail : text :=
  [nl] ++ [tab; tab; tab] ++ T "};" ++ [nl].

Definition sample_block : text := block_head ++ portrait_line ++ block_tail.

(** An event that changes the content of the file at [p]. *)
Definition mutates (p : string) (e : event) : bool :=
  match e with
  | Copied _ dst => bool_decide (dst = p)
  | Truncated q => bool_decide (q = p)
  | Wrote q _ => bool_decide (q = p)
  | Printed _ => false
  end.

(** The effects of a run from [w] to [w'], oldest first. *)
Definition new_events (w w' : world) : list event :=
  drop (length (trace w)) (trace w').

(** The literal [l] differs from the text [s] at a character both have:
    [l] is then not at the start of [s], whatever follows [s]. *)
Fixpoint clash (l s : text) : bool :=
  match l, s with
  | a :: l', b :: s' => if Ascii.eqb a b then clash l' s' else true
  | _, _ => false
  end.

(** At no offset of [t] does the key of the marker start, whatever
    follows [t]. *)
Fixpoint no_start (t : text) : bool :=
  match t with
  | [] => true
  | _ :: t' => clash (marker_key ++ [dq]) t && no_start t'
  end.

(** The pieces of a patched text, from the pieces of the original: the
    insertion after each match is text the scan copies. *)
Fixpoint restamp (ps : list piece) : list piece :=
  match ps with
  | [] => []
  | Gap c :: ps' => Gap c :: restamp ps'
  | Hit m :: ps' => Hit m :: (Gap <$> insertion) ++ restamp ps'
  end.

(** The indentation of the two lines the output has after occurrence
    number [k] of the input [s], which starts at offset [i] and matched
    [m]: the first of them starts after the match and a line feed. *)
Definition inserted_indents (s : text) (k i : nat) (m : text) : text * text :=
  let out := (patch s).1 in
  let first_line := i + k * length insertion + length m + 1 in
  let second_line := first_line + length usage_line + 1 in
  (indent_of (drop first_line out), indent_of (drop second_line out)).

Definition four_tabs : text := [tab; tab; tab; tab].

(** The portrait line indented by two spaces. *)
Definition two_space_line : text := T "  " ++ portrait_line.

(** A project file with three build configurations. *)
Definition sample_project : text :=
  sample_block ++ sample_block ++ sample_block.

(** A project file without the marker. *)
Definition no_marker_text : text :=
  [tab; tab; tab] ++ T "buildSettings = {" ++ [nl]
  ++ [tab; tab; tab; tab] ++ T "PRODUCT_NAME = trendy;" ++ [nl]
  ++ [tab; tab; tab] ++ T "};" ++ [nl].

(** A world with the project file holding [t] and an older backup. *)
Definition stale_backup_world (t : text) : world :=
  World (<[ project_path +:+ ".backup" := [Byte.x00] ]>
           {[ project_path := byte_of_ascii <$> t ]}) [].

(** A world without files. *)
Definition empty_world : world := World ∅ [].

(** A codec that accepts 7-bit characters only, as Python's ascii codec. *)
Definition is_7bit (c : ascii) : bool := N.ltb (N_of_ascii c) 128.

Definition ascii_decode (b : list Byte.byte) : option text :=
  if forallb is_7bit (ascii_of_byte <$> b) then Some (ascii_of_byte <$> b)
  else None.

Definition ascii_encode (t : text) : option (list Byte.byte) :=
  if forallb is_7bit t then Some (byte_of_ascii <$> t) else None.

(** The sample block with a comment that holds an e with an acute accent
    (one byte in Latin-1). *)
Definition accented_block : text :=
  T "/* caf" ++ ["233"%char] ++ T " */" ++ [nl] ++ sample_block.

(** The line [main] prints when the patch has been applied, and the one
    it prints when it has not. *)
Definition success_line : string :=
  String nl "✅ Success! Calendar permissions have been added to the project.".

Definition failure_line : string :=
  String nl "❌ Failed to add calendar permissions.".

(** The closing quote and semicolon, as a continuation. *)
Definition closing : cont := match_here [Lit [dq; ";"%char]].

(** * Properties *)

(** ** The matcher *)

Local Arguments Ascii.eqb : simpl never.

Lemma strip_prefix_Some l s s' : strip_prefix l s = Some s' ↔ s = l ++ s'.
Proof.
  revert s. induction l as [|a l IH]; intros [|b s]; cbn [strip_prefix app].
  - split; congruence.
  - split; congruence.
  - split; [discriminate | intros [=]].
  - destruct (Ascii.eqb_spec a b) as [->|Hne].
    + rewrite IH. split; [intros -> | intros [=]]; done.
    + split; [discriminate | intros [=]; congruence].
Qed.

Lemma strip_prefix_app l s : strip_prefix l (l ++ s) = Some s.
Proof. by apply strip_prefix_Some. Qed.

Local Arguments strip_prefix : simpl never.

Lemma Some_pair_inj {A B} (a a' : A) (b b' : B) :
  Some (a, b) = Some (a', b') → a = a' ∧ b = b'.
Proof. by intros [= -> ->]. Qed.

Lemma match_here_lit l p s :
  match_here (Lit l :: p) s
  = match strip_prefix l s with
    | Some s' =>
        match match_here p s' with
        | Some (m, r) => Some (l ++ m, r)
        | None => None
        end
    | None => None
    end.
Proof. reflexivity. Qed.

Lemma closing_Some s m r :
  closing s = Some (m, r) ↔ m = [dq; ";"%char] ∧ s = dq :: ";"%char :: r.
Proof.
  unfold closing. rewrite match_here_lit.
  destruct (strip_prefix [dq; ";"%char] s) as [s'|] eqn:E.
  - apply strip_prefix_Some in E as ->. cbn [match_here app]. split.
    + intros [= <- <-]. done.
    + intros [-> [= ->]]. done.
  - split; [discriminate|]. intros [_ ->].
    pose proof (strip_prefix_app [dq; ";"%char] r) as E'. simpl in E'. congruence.
Qed.

Lemma closing_not_quote x s : x ≠ dq → closing (x :: s) = None.
Proof.
  intros Hx. destruct (closing (x :: s)) as [[m r]|] eqn:E; [|done].
  apply closing_Some in E as [_ [= ? _]]. done.
Qed.

Lemma closing_nil : closing [] = None.
Proof. reflexivity. Qed.

(** Every text is a run without quotes, at its end or before a quote. *)
Lemma split_at_quote (s : text) :
  (dq ∉ s) ∨ ∃ v r, (dq ∉ v) ∧ s = v ++ dq :: r.
Proof.
  induction s as [|x s IH].
  - left. apply not_elem_of_nil.
  - destruct (decide (x = dq)) as [->|Hx].
    + right. exists [], s. split; [apply not_elem_of_nil | done].
    + destruct IH as [IH | (v & r & Hv & ->)].
      * left. by apply not_elem_of_cons.
      * right. exists (x :: v), r. split; [by apply not_elem_of_cons | done].
Qed.

(** Backtracking never helps this expression: the run of characters
    other than the quote is taken whole, and the closing follows it or
    the match fails. *)
Lemma greedy_star_quote v r :
  dq ∉ v →
  greedy_star dq closing (v ++ dq :: r)
  = match closing (dq :: r) with
    | Some (m, r') => Some (v ++ m, r')
    | None => None
    end.
Proof.
  induction v as [|x v IH]; intros Hv; simpl.
  - by destruct (closing (dq :: r)) as [[??]|].
  - apply not_elem_of_cons in Hv as [Hx Hv].
    destruct (Ascii.eqb_spec x dq) as [->|_]; [done|].
    rewrite (IH Hv). destruct (closing (dq :: r)) as [[??]|]; [done|].
    by apply closing_not_quote.
Qed.

Lemma greedy_star_no_quote v : dq ∉ v → greedy_star dq closing v = None.
Proof.
  induction v as [|x v IH]; intros Hv; simpl; [done|].
  apply not_elem_of_cons in Hv as [Hx Hv].
  destruct (Ascii.eqb_spec x dq) as [->|_]; [done|].
  rewrite (IH Hv). by apply closing_not_quote.
Qed.

Lemma greedy_plus_Some s m r :
  greedy_plus dq closing s = Some (m, r) ↔
  ∃ v, v ≠ [] ∧ (dq ∉ v) ∧ m = v ++ [dq; ";"%char] ∧ s = v ++ dq :: ";"%char :: r.
Proof.
  split.
  - destruct s as [|x s]; simpl; [done|].
    destruct (Ascii.eqb_spec x dq) as [->|Hx]; [done|].
    destruct (split_at_quote s) as [Hs | (v & t & Hv & ->)].
    + by rewrite greedy_star_no_quote.
    + rewrite greedy_star_quote by done.
      destruct (closing (dq :: t)) as [[m' r']|] eqn:E; [|done].
      apply closing_Some in E as [-> [= ->]]. intros [= <- <-].
      exists (x :: v). split_and!; [done | by apply not_elem_of_cons | done | done].
  - intros (v & Hne & Hv & -> & ->). destruct v as [|x v]; [done|].
    apply not_elem_of_cons in Hv as [Hx Hv]. simpl.
    destruct (Ascii.eqb_spec x dq) as [->|_]; [done|].
    rewrite greedy_star_quote by done.
    assert (closing (dq :: ";"%char :: r) = Some ([dq; ";"%char], r)) as ->
      by by apply closing_Some.
    done.
Qed.

(** The matcher succeeds exactly on the texts that start with an
    anchor, and the match is that anchor. *)
Lemma match_here_Some s m r :
  match_here pattern s = Some (m, r) ↔
  ∃ v, v ≠ [] ∧ (dq ∉ v) ∧ m = marker_key ++ [dq] ++ v ++ [dq; ";"%char]
       ∧ s = m ++ r.
Proof.
  unfold pattern. change (match_here (Lit (marker_key ++ [dq]) :: ?p) s)
    with (match strip_prefix (marker_key ++ [dq]) s with
          | Some s' =>
              match greedy_plus dq closing s' with
              | Some (m, r) => Some ((marker_key ++ [dq]) ++ m, r)
              | None => None
              end
          | None => None
          end).
  split.
  - destruct (strip_prefix _ s) as [s'|] eqn:E; [|done].
    apply strip_prefix_Some in E as ->.
    destruct (greedy_plus dq closing s') as [[m' r']|] eqn:E; [|done].
    apply greedy_plus_Some in E as (v & Hne & Hv & -> & ->).
    intros [<- <-]%Some_pair_inj. exists v. by rewrite <- !app_assoc.
  - intros (v & Hne & Hv & -> & ->).
    replace ((marker_key ++ [dq] ++ v ++ [dq; ";"%char]) ++ r)
      with ((marker_key ++ [dq]) ++ v ++ dq :: ";"%char :: r)
      by by rewrite <- !app_assoc.
    rewrite strip_prefix_app.
    assert (greedy_plus dq closing (v ++ dq :: ";"%char :: r)
            = Some (v ++ [dq; ";"%char], r)) as ->
      by (apply greedy_plus_Some; eauto).
    by rewrite <- !app_assoc.
Qed.

Lemma match_here_sound s m r :
  match_here pattern s = Some (m, r) → is_anchor m ∧ s = m ++ r.
Proof.
  intros (v & ? & ? & ? & ?)%match_here_Some. split; [|done]. by exists v.
Qed.

Lemma match_here_complete m r :
  is_anchor m → match_here pattern (m ++ r) = Some (m, r).
Proof. intros (v & ? & ? & ?). apply match_here_Some. by exists v. Qed.

Lemma anchor_nonempty m : is_anchor m → m ≠ [].
Proof.
  intros (v & _ & _ & ->) E. apply (f_equal length) in E.
  rewrite !length_app in E. simpl in E. lia.
Qed.

Lemma match_here_shorter s m r :
  match_here pattern s = Some (m, r) → length r < length s.
Proof.
  intros [Ha ->]%match_here_sound. apply anchor_nonempty in Ha.
  rewrite length_app. destruct m; [done | simpl; lia].
Qed.

(** ** The scan *)

Local Arguments marker_key : simpl never.
Local Arguments calendar_keys : simpl never.
Local Arguments insertion : simpl never.
Local Arguments pattern : simpl never.
Local Arguments match_here : simpl never.

Lemma scan_loop_fuel n k s :
  length s ≤ n → length s ≤ k → scan_loop n s = scan_loop k s.
Proof.
  revert k s. induction n as [|n IH]; intros [|k] [|c s]; simpl; try done; try lia.
  intros Hn Hk. destruct (match_here pattern (c :: s)) as [[m r]|] eqn:E.
  - apply match_here_shorter in E. simpl in E. f_equal. apply IH; lia.
  - f_equal. apply IH; lia.
Qed.

Lemma scan_nil : scan [] = [].
Proof. reflexivity. Qed.

Lemma scan_gap c s :
  match_here pattern (c :: s) = None → scan (c :: s) = Gap c :: scan s.
Proof. intros E. unfold scan. simpl. by rewrite E. Qed.

Lemma scan_hit s m r :
  match_here pattern s = Some (m, r) → scan s = Hit m :: scan r.
Proof.
  intros E. pose proof (match_here_shorter _ _ _ E) as Hlt.
  unfold scan. destruct s as [|c s]; [simpl in Hlt; lia|].
  simpl. rewrite E. f_equal. simpl in Hlt. apply scan_loop_fuel; lia.
Qed.

Lemma scan_anchor m r : is_anchor m → scan (m ++ r) = Hit m :: scan r.
Proof. intros Ha. by apply scan_hit, match_here_complete. Qed.

(** Induction along the scan: a property holds of every text when it
    holds of the empty text, is kept by a character at which nothing
    matches, and by an anchor in front. *)
Lemma scan_ind (P : text → Prop) :
  P [] →
  (∀ c s, match_here pattern (c :: s) = None → P s → P (c :: s)) →
  (∀ m r, is_anchor m → P r → P (m ++ r)) →
  ∀ s, P s.
Proof.
  intros Hnil Hgap Hhit s.
  remember (length s) as n eqn:Hn. revert s Hn.
  induction (lt_wf n) as [n _ IH]. intros [|c s] ->; [done|].
  destruct (match_here pattern (c :: s)) as [[m r]|] eqn:E.
  - pose proof (match_here_shorter _ _ _ E).
    apply match_here_sound in E as [Ha ->]. apply Hhit; [done|]. by eapply IH.
  - apply Hgap; [done|]. eapply IH; [|done]. simpl. lia.
Qed.

Lemma splice_gaps r s : splice r (Gap <$> s) = s.
Proof.
  induction s as [|c s IH]; [done|].
  change (c :: splice r (Gap <$> s) = c :: s). by rewrite IH.
Qed.

Lemma hits_gaps s : hits (Gap <$> s) = 0.
Proof. induction s as [|c s IH]; [done | exact IH]. Qed.

(** The substitution with a callback that appends [r] to the match and
    counts it writes out the pieces of the scan and counts its hits. *)
Lemma re_sub_loop_scan r fuel s n :
  re_sub_loop fuel pattern (λ m k, (m ++ r, S k)) s n
  = (splice r (scan_loop fuel s), n + hits (scan_loop fuel s)).
Proof.
  revert s n. induction fuel as [|fuel IH]; intros s n; simpl.
  - rewrite splice_gaps, hits_gaps. f_equal. lia.
  - destruct s as [|c s]; [simpl; f_equal; lia|].
    destruct (match_here pattern (c :: s)) as [[m t]|]; rewrite IH; simpl.
    + rewrite <- app_assoc. f_equal. lia.
    + done.
Qed.

Lemma patch_scan s : patch s = (splice insertion (scan s), hits (scan s)).
Proof. unfold patch, re_sub, replace_func. apply (re_sub_loop_scan insertion). Qed.

Lemma splice_scan_id s : splice [] (scan s) = s.
Proof.
  induction s as [|c s E IH|m r Ha IH] using scan_ind.
  - done.
  - rewrite scan_gap by done. simpl. by rewrite IH.
  - rewrite scan_anchor by done. simpl. by rewrite IH.
Qed.

(** ** Where the pieces are *)

Lemma occurs_at_here m s : occurs_at m 0 (m ++ s).
Proof. unfold occurs_at. by rewrite drop_0, take_app_length. Qed.

Lemma occurs_at_skip a m j s :
  occurs_at m j s → occurs_at m (length a + j) (a ++ s).
Proof. unfold occurs_at. by rewrite drop_app_add. Qed.

Lemma occurs_at_split m i s :
  occurs_at m i s → m ≠ [] →
  ∃ a b, s = a ++ m ++ b ∧ length a = i.
Proof.
  unfold occurs_at. intros Hm Hne. exists (take i s), (drop (length m) (drop i s)).
  rewrite <- Hm at 1. rewrite take_drop, take_drop. split; [done|].
  apply length_take_le. destruct (decide (i ≤ length s)) as [|Hgt]; [done|].
  rewrite drop_ge, take_nil in Hm by lia. done.
Qed.

Lemma occurs_at_app_l m r i s : occurs_at (m ++ r) i s → occurs_at m i s.
Proof.
  unfold occurs_at. intros H. apply (f_equal (take (length m))) in H.
  rewrite take_take, take_app_length, length_app in H.
  by replace (length m `min` (length m + length r)) with (length m) in H by lia.
Qed.

Lemma hits_locate pos ps : length (locate pos ps) = hits ps.
Proof.
  revert pos. induction ps as [|[c|m] ps IH]; intros pos; simpl; [done|apply IH|].
  by rewrite IH.
Qed.

Lemma locate_ge pos ps i m : (i, m) ∈ locate pos ps → pos ≤ i.
Proof.
  revert pos. induction ps as [|[c|m0] ps IH]; intros pos; simpl.
  - by intros ?%elem_of_nil.
  - intros ?%IH. lia.
  - intros [[= -> ->]|?%IH]%elem_of_cons; lia.
Qed.

(** An occurrence is in the input where [locate] says, and in the
    output [length r] further for each occurrence before it, followed
    by [r]. *)
Lemma locate_splice r ps pos k i m :
  locate pos ps !! k = Some (i, m) →
  pos ≤ i ∧ occurs_at (m ++ r) (i - pos + k * length r) (splice r ps).
Proof.
  revert pos k. induction ps as [|[c|m0] ps IH]; intros pos k; simpl.
  - done.
  - intros [Hle Hocc]%IH. split; [lia|].
    replace (i - pos + k * length r) with (length [c] + (i - S pos + k * length r))
      by (simpl; lia).
    by apply (occurs_at_skip [c]).
  - destruct k as [|k]; simpl.
    + intros [= -> ->]. split; [done|].
      replace (i - i + 0) with 0 by lia. rewrite app_assoc. apply occurs_at_here.
    + intros [Hle Hocc]%IH. split; [lia|].
      replace (i - pos + (length r + k * length r))
        with (length (m0 ++ r) + (i - (pos + length m0) + k * length r))
        by (rewrite length_app; lia).
      rewrite app_assoc. by apply occurs_at_skip.
Qed.

Lemma length_splice r ps :
  length (splice r ps) = length (splice [] ps) + hits ps * length r.
Proof.
  induction ps as [|[c|m] ps IH]; simpl; [done|by rewrite IH|].
  rewrite !length_app, IH. simpl. lia.
Qed.

Lemma ended_before_cons p m occ i :
  ended_before ((p, m) :: occ) i
  = (if decide (p + length m ≤ i) then 1 else 0) + ended_before occ i.
Proof.
  unfold ended_before. rewrite filter_cons. simpl. by case_decide.
Qed.

Lemma ended_before_locate_lt pos ps i :
  i < pos → ended_before (locate pos ps) i = 0.
Proof.
  revert pos. induction ps as [|[c|m] ps IH]; intros pos Hlt; simpl.
  - done.
  - apply IH. lia.
  - rewrite ended_before_cons, IH by lia. case_decide; [lia | done].
Qed.

Lemma ended_before_mono occ i j :
  i ≤ j → ended_before occ i ≤ ended_before occ j.
Proof.
  intros Hle. induction occ as [|[p m] occ IH]; [done|].
  rewrite !ended_before_cons. repeat case_decide; lia.
Qed.

(** Every character of the input is in the output, moved right by
    [length r] for each occurrence that ends before it. *)
Lemma splice_lookup r ps pos j c :
  splice [] ps !! j = Some c →
  splice r ps !! (j + length r * ended_before (locate pos ps) (pos + j)) = Some c.
Proof.
  revert pos j. induction ps as [|[c0|m] ps IH]; intros pos j; simpl.
  - done.
  - destruct j as [|j]; simpl.
    + intros [= ->]. rewrite ended_before_locate_lt by lia.
      by replace (length r * 0) with 0 by lia.
    + intros H. replace (pos + S j) with (S pos + j) by lia. by apply IH.
  - destruct (decide (j < length m)) as [Hlt|Hge].
    + rewrite (lookup_app_l m (splice [] ps)) by done. intros Hc.
      rewrite ended_before_cons, ended_before_locate_lt by lia.
      case_decide; [lia|]. replace (j + length r * (0 + 0)) with j by lia.
      by rewrite lookup_app_l.
    + rewrite (lookup_app_r m (splice [] ps)) by lia. intros Hc.
      rewrite ended_before_cons. case_decide; [|lia].
      specialize (IH (pos + length m) (j - length m) Hc).
      replace (pos + length m + (j - length m)) with (pos + j) in IH by lia.
      rewrite app_assoc, lookup_app_r by (rewrite length_app; lia).
      rewrite <- IH. f_equal. rewrite length_app. lia.
Qed.

Lemma scan_hits_anchor s m : Hit m ∈ scan s → is_anchor m.
Proof.
  induction s as [|c s E IH|m0 r Ha IH] using scan_ind.
  - rewrite scan_nil. by intros ?%elem_of_nil.
  - rewrite scan_gap by done. intros [[=]|?]%elem_of_cons. by apply IH.
  - rewrite scan_anchor by done. intros [[= ->]|?]%elem_of_cons; [done|]. by apply IH.
Qed.

Lemma locate_hit pos ps i m : (i, m) ∈ locate pos ps → Hit m ∈ ps.
Proof.
  revert pos. induction ps as [|[c|m0] ps IH]; intros pos; simpl.
  - by intros ?%elem_of_nil.
  - intros ?%IH. by apply list_elem_of_further.
  - intros [[= -> ->]|?%IH]%elem_of_cons; [apply list_elem_of_here|].
    by apply list_elem_of_further.
Qed.

Lemma occurrences_anchor s k i m :
  occurrences s !! k = Some (i, m) → is_anchor m.
Proof.
  intros H. apply (scan_hits_anchor s), (locate_hit 0 _ i).
  apply list_elem_of_lookup. by exists k.
Qed.

Lemma occurrences_input s k i m :
  occurrences s !! k = Some (i, m) → occurs_at m i s.
Proof.
  intros [_ H]%(locate_splice []). rewrite splice_scan_id, app_nil_r in H.
  simpl in H. by replace (i - 0 + k * 0) with i in H by lia.
Qed.

Lemma occurrences_output r s k i m :
  occurrences s !! k = Some (i, m) →
  occurs_at (m ++ r) (i + k * length r) (splice r (scan s)).
Proof.
  intros [_ H]%(locate_splice r).
  by replace (i - 0 + k * length r) with (i + k * length r) in H by lia.
Qed.

Lemma ended_before_locate pos ps k i m :
  (∀ m', Hit m' ∈ ps → m' ≠ []) →
  locate pos ps !! k = Some (i, m) →
  ended_before (locate pos ps) i = k.
Proof.
  revert pos k. induction ps as [|[c|m0] ps IH]; intros pos k Hne; simpl.
  - done.
  - apply IH. intros m' ?. by apply Hne, list_elem_of_further.
  - assert (length m0 ≠ 0) as Hm0.
    { intros ?%nil_length_inv. apply (Hne m0); [apply list_elem_of_here | done]. }
    rewrite ended_before_cons. destruct k as [|k]; simpl.
    + intros [= -> ->]. rewrite ended_before_locate_lt by lia.
      case_decide; lia.
    + intros H. assert (pos + length m0 ≤ i).
      { apply (locate_ge _ ps i m), list_elem_of_lookup. by exists k. }
      rewrite (IH _ k); [case_decide; lia | | done].
      intros m' ?. by apply Hne, list_elem_of_further.
Qed.

Lemma ended_before_occurrences s k i m :
  occurrences s !! k = Some (i, m) → ended_before (occurrences s) i = k.
Proof.
  apply ended_before_locate. intros m' ?%scan_hits_anchor. by apply anchor_nonempty.
Qed.

(** ** The occurrences are the non-overlapping ones, and leave none out *)

Lemma locate_shift d pos ps :
  locate (pos + d) ps = prod_map (λ i, i + d) id <$> locate pos ps.
Proof.
  revert pos. induction ps as [|[c|m] ps IH]; intros pos; cbn [locate].
  - done.
  - apply (IH (S pos)).
  - cbn [fmap list_fmap prod_map fst snd id]. f_equal.
    rewrite <- IH. f_equal. lia.
Qed.

Lemma locate_disjoint pos ps k i m j m' :
  locate pos ps !! k = Some (i, m) →
  locate pos ps !! S k = Some (j, m') →
  i + length m ≤ j.
Proof.
  revert pos k. induction ps as [|[c|m0] ps IH]; intros pos k; cbn [locate].
  - done.
  - apply IH.
  - destruct k as [|k]; cbn [lookup list_lookup].
    + intros [= -> ->] H. apply (locate_ge _ ps j m'), list_elem_of_lookup.
      by exists 0.
    + apply IH.
Qed.

(** Two occurrences that follow each other do not overlap. *)
Lemma occurrences_disjoint s k i m j m' :
  occurrences s !! k = Some (i, m) →
  occurrences s !! S k = Some (j, m') →
  i + length m ≤ j.
Proof. apply locate_disjoint. Qed.

(** Wherever an anchor is in the text, one of the occurrences holds the
    offset at which it starts: no further occurrence can be added. *)
Lemma occurrences_cover s a j :
  is_anchor a → occurs_at a j s →
  ∃ k i m, occurrences s !! k = Some (i, m) ∧ i ≤ j < i + length m.
Proof.
  intros Ha. revert j. unfold occurrences.
  induction s as [|c s E IH|m r Hm IH] using scan_ind; intros j Hj.
  - unfold occurs_at in Hj. rewrite drop_nil, take_nil in Hj.
    by apply anchor_nonempty in Ha.
  - rewrite scan_gap by done. cbn [locate]. destruct j as [|j].
    + apply occurs_at_split in Hj as (pre & post & Hs & Hpre);
        [|by apply anchor_nonempty].
      apply nil_length_inv in Hpre as ->. cbn [app] in Hs.
      rewrite Hs, (match_here_complete a post Ha) in E. done.
    + destruct (IH j Hj) as (k & i & m & Hk & Hi).
      exists k, (S i), m. split; [|lia].
      rewrite (locate_shift 1 0). rewrite list_lookup_fmap, Hk.
      cbn [fmap option_fmap option_map prod_map fst snd id]. do 2 f_equal. lia.
  - rewrite scan_anchor by done. cbn [locate].
    destruct (decide (j < length m)) as [Hlt|Hge].
    + exists 0, 0, m. split; [done | lia].
    + assert (occurs_at a (j - length m) r) as Hj'.
      { unfold occurs_at in *. rewrite <- (drop_app_add m r (j - length m)).
        by replace (length m + (j - length m)) with j by lia. }
      destruct (IH _ Hj') as (k & i & m' & Hk & Hi).
      exists (S k), (i + length m), m'. split; [|lia].
      change (locate (0 + length m) (scan r) !! k = Some (i + length m, m')).
      by rewrite (locate_shift (length m) 0), list_lookup_fmap, Hk.
Qed.

(** ** The substitution reaches every occurrence *)

(** C1: in a text with exactly N non-overlapping occurrences of the marker
    expression, N at least 1, the patch reports N insertions, and each
    occurrence (an anchor statement with a non-empty value, at its place in
    the input) is in the output immediately followed by a line feed and the
    two keys: the occurrence number k, at offset i of the input, is at
    offset i plus k times the length of the insertion.  The occurrences
    are those of [occurrences_disjoint] and [occurrences_cover]. *)
Theorem patch_inserts_after_every_occurrence (s : text) (N : nat) :
  length (occurrences s) = N → 1 ≤ N →
  (patch s).2 = N ∧
  ∀ k i m, occurrences s !! k = Some (i, m) →
    is_anchor m ∧ occurs_at m i s ∧
    occurs_at (m ++ [nl] ++ calendar_keys) (i + k * length insertion) (patch s).1.
Proof.
  intros HN _. rewrite patch_scan. cbn [fst snd]. split.
  - rewrite <- HN. unfold occurrences. by rewrite hits_locate.
  - intros k i m H. split_and!.
    + by eapply occurrences_anchor.
    + by eapply occurrences_input.
    + by apply (occurrences_output insertion).
Qed.

(** ** What the substitution leaves in place *)

(** C4: every character of the input is in the output, in the same order:
    the character at offset i is at the offset i moved right by the length
    of the insertion for each occurrence that ends at or before i, and this
    renumbering is strictly increasing.  In particular each matched anchor
    is reproduced unchanged, and the output is longer than the input by the
    insertions alone. *)
Theorem patch_preserves_input (s : text) :
  (∀ i c, s !! i = Some c →
     (patch s).1 !! new_index (length insertion) s i = Some c) ∧
  (∀ i j, i < j →
     new_index (length insertion) s i < new_index (length insertion) s j) ∧
  (∀ k i m, occurrences s !! k = Some (i, m) →
     new_index (length insertion) s i = i + k * length insertion ∧
     occurs_at m (new_index (length insertion) s i) (patch s).1) ∧
  length (patch s).1 = length s + length (occurrences s) * length insertion.
Proof.
  rewrite patch_scan. cbn [fst snd]. unfold new_index. split_and!.
  - intros i c Hc. rewrite <- (splice_scan_id s) in Hc.
    apply (splice_lookup insertion _ 0) in Hc. by rewrite Nat.add_0_l in Hc.
  - intros i j Hlt.
    pose proof (ended_before_mono (occurrences s) i j ltac:(lia)). nia.
  - intros k i m H. rewrite (ended_before_occurrences _ _ _ _ H).
    split; [lia|]. replace (i + length insertion * k) with (i + k * length insertion) by lia.
    eapply occurs_at_app_l. by apply occurrences_output.
  - rewrite (length_splice insertion), splice_scan_id. unfold occurrences.
    by rewrite hits_locate.
Qed.

(** ** Quotes decide a match *)

Ltac reassoc := repeat first [rewrite <- app_assoc | progress cbn [app]].
Ltac reassoc_in E :=
  repeat first [rewrite <- app_assoc in E | progress cbn [app] in E].

Lemma marker_key_no_quote : dq ∉ marker_key.
Proof. apply (bool_decide_unpack _). by vm_compute. Qed.

Lemma marker_key_head : ∃ t, marker_key = "I"%char :: t.
Proof. by eexists. Qed.

Lemma quote_split_unique (a a' r r' : text) :
  dq ∉ a → dq ∉ a' → a ++ dq :: r = a' ++ dq :: r' → a = a' ∧ r = r'.
Proof.
  intros Ha Ha' E.
  by apply not_elem_of_app_cons_inv_l in E as (-> & _ & ->).
Qed.

(** A text with two quotes and a character after the second starts with
    an anchor exactly when the key is all there is before the first quote,
    there is something between the quotes, and a semicolon follows. *)
Lemma match_here_two_quotes (a b d : text) (x : ascii) :
  dq ∉ a → dq ∉ b →
  match_here pattern (a ++ dq :: b ++ dq :: x :: d)
  = if decide (a = marker_key ∧ b ≠ [] ∧ x = ";"%char)
    then Some (a ++ dq :: b ++ [dq; ";"%char], d)
    else None.
Proof.
  intros Ha Hb. case_decide as Hc.
  - destruct Hc as (-> & Hne & ->). apply match_here_Some. exists b.
    split_and!; try done. by reassoc.
  - destruct (match_here pattern _) as [[m r]|] eqn:E; [|done].
    apply match_here_Some in E as (v & Hne & Hv & -> & E). exfalso. apply Hc.
    reassoc_in E.
    apply quote_split_unique in E as [-> E]; [|done|apply marker_key_no_quote].
    apply quote_split_unique in E as [-> [= -> _]]; done.
Qed.

(** The first two quotes of a text that ends with a quoted value and one
    more character. *)
Lemma first_two_quotes (w v e : text) (x : ascii) :
  ∃ a b x' d, (dq ∉ a) ∧ (dq ∉ b) ∧
    ∀ Y, w ++ dq :: v ++ dq :: x :: e ++ Y = a ++ dq :: b ++ dq :: x' :: d ++ Y.
Proof.
  assert (∀ u : text, ∃ b x' d, (dq ∉ b) ∧
            ∀ Y, u ++ dq :: x :: e ++ Y = b ++ dq :: x' :: d ++ Y) as Hone.
  { intros u. destruct (split_at_quote u) as [Hu | (b & t & Hb & ->)].
    - by exists u, x, e.
    - destruct t as [|y t].
      + exists b, dq, (x :: e). split; [done|]. intros Y. by rewrite <- app_assoc.
      + exists b, y, (t ++ dq :: x :: e). split; [done|]. intros Y.
        by rewrite <- !app_assoc. }
  destruct (split_at_quote w) as [Hw | (a & t & Ha & ->)].
  - destruct (Hone v) as (b & x' & d & Hb & E).
    exists w, b, x', d. split_and!; [done..|]. intros Y. by rewrite E.
  - destruct (Hone (t ++ dq :: v)) as (b & x' & d & Hb & E).
    exists a, b, x', d. split_and!; [done..|]. intros Y.
    rewrite <- app_assoc. simpl. f_equal. f_equal.
    specialize (E Y). by rewrite <- app_assoc in E.
Qed.

(** Whether the expression matches at the start of a text is decided
    before the end of the first anchor in it. *)
Lemma match_here_stable (w m Y Y' : text) :
  is_anchor m →
  match_here pattern (w ++ m ++ Y) = None →
  match_here pattern (w ++ m ++ Y') = None.
Proof.
  intros (v & Hne & Hv & ->).
  destruct (first_two_quotes (w ++ marker_key) v [] ";"%char)
    as (a & b & x' & d & Ha & Hb & E).
  assert (∀ Z, w ++ (marker_key ++ [dq] ++ v ++ [dq; ";"%char]) ++ Z
               = a ++ dq :: b ++ dq :: x' :: d ++ Z) as E'.
  { intros Z. rewrite <- E. rewrite <- !app_assoc. done. }
  rewrite !E', !match_here_two_quotes by done. by case_decide.
Qed.

(** A text that is not empty and starts with no anchor does not start
    with one when the key, a quote and something other than a semicolon
    come after it. *)
Lemma match_here_extend (w Y : text) :
  w ≠ [] → (∀ r, Y ≠ ";"%char :: r) →
  match_here pattern w = None →
  match_here pattern (w ++ marker_key ++ dq :: Y) = None.
Proof.
  intros Hw HY Hnone.
  destruct (match_here pattern (w ++ _)) as [[m r]|] eqn:E; [exfalso|done].
  apply match_here_Some in E as (v & Hne & Hv & -> & E).
  reassoc_in E.
  pose proof marker_key_no_quote as Hk.
  destruct (split_at_quote w) as [Hq | (a & w' & Ha & ->)].
  - rewrite app_assoc in E.
    apply quote_split_unique in E as [E _]; [|by apply not_elem_of_app|done].
    apply (f_equal length) in E. rewrite length_app in E.
    destruct w; [done | simpl in E; lia].
  - reassoc_in E.
    apply quote_split_unique in E as [-> E]; [|done..].
    destruct (split_at_quote w') as [Hq | (b & w'' & Hb & ->)].
    + rewrite app_assoc in E.
      apply quote_split_unique in E as [_ E]; [|by apply not_elem_of_app|done].
      by apply HY in E.
    + reassoc_in E.
      apply quote_split_unique in E as [-> E]; [|done..].
      destruct w'' as [|x w''].
      * destruct marker_key_head as [t Ht]. rewrite Ht in E. discriminate.
      * simpl in E. injection E as -> _.
        rewrite match_here_two_quotes in Hnone by done.
        case_decide as Hc; [done|]. by apply Hc.
Qed.

Lemma match_here_app (s m r Y : text) :
  match_here pattern s = Some (m, r) →
  match_here pattern (s ++ Y) = Some (m, r ++ Y).
Proof.
  intros (v & ? & ? & -> & ->)%match_here_Some. rewrite <- app_assoc.
  apply match_here_complete. by exists v.
Qed.

Lemma scan_app_key (pre Y : text) :
  (∀ r, Y ≠ ";"%char :: r) →
  scan (pre ++ marker_key ++ dq :: Y) = scan pre ++ scan (marker_key ++ dq :: Y).
Proof.
  intros HY. induction pre as [|c s E IH|m r Ha IH] using scan_ind.
  - rewrite scan_nil, !app_nil_l. reflexivity.
  - rewrite scan_gap by done. cbn [app]. rewrite scan_gap, IH; [reflexivity|].
    by apply (match_here_extend (c :: s)).
  - rewrite <- app_assoc, (scan_anchor m (r ++ _)), (scan_anchor m r), IH by done.
    reflexivity.
Qed.

Lemma clash_strip (l s X : text) :
  clash l s = true → strip_prefix l (s ++ X) = None.
Proof.
  revert s. induction l as [|a l IH]; intros [|b s]; simpl; try done.
  unfold strip_prefix; fold strip_prefix.
  destruct (Ascii.eqb a b); [apply IH | done].
Qed.

Lemma clash_no_match (s X : text) :
  clash (marker_key ++ [dq]) s = true → match_here pattern (s ++ X) = None.
Proof.
  intros H. unfold pattern. by rewrite match_here_lit, clash_strip.
Qed.

Lemma scan_no_start (t X : text) :
  no_start t = true → scan (t ++ X) = (Gap <$> t) ++ scan X.
Proof.
  induction t as [|c t IH]; [done|].
  intros [Hc Ht]%andb_prop. change ((c :: t) ++ X) with (c :: t ++ X).
  rewrite scan_gap, IH; [done | done |]. by apply (clash_no_match (c :: t)).
Qed.

Lemma scan_insertion (X : text) :
  scan (insertion ++ X) = (Gap <$> insertion) ++ scan X.
Proof. apply scan_no_start. by vm_compute. Qed.

Lemma match_here_empty_anchor (X : text) :
  match_here pattern (empty_anchor ++ X) = None.
Proof.
  unfold empty_anchor.
  replace ((marker_key ++ [dq; dq; ";"%char]) ++ X)
    with (marker_key ++ dq :: [] ++ dq :: ";"%char :: X)
    by (by rewrite <- app_assoc).
  rewrite match_here_two_quotes.
  - case_decide as Hc; [|done]. by destruct Hc as (_ & ? & _).
  - apply marker_key_no_quote.
  - apply not_elem_of_nil.
Qed.

Lemma scan_empty_anchor (X : text) :
  scan (empty_anchor ++ X) = (Gap <$> empty_anchor) ++ scan X.
Proof.
  destruct marker_key_head as [t Ht].
  assert (∃ e, empty_anchor = "I"%char :: e ∧ no_start e = true) as (e & He & Hns).
  { eexists. split; [reflexivity | by vm_compute]. }
  pose proof (match_here_empty_anchor X) as Hnone. rewrite He in *.
  change (("I"%char :: e) ++ X) with ("I"%char :: e ++ X) in *.
  rewrite scan_gap by done. by rewrite scan_no_start.
Qed.

(** ** Patching a patched text *)

Lemma splice_app r ps qs : splice r (ps ++ qs) = splice r ps ++ splice r qs.
Proof.
  induction ps as [|[c|m] ps IH]; cbn [app splice]; [done | by rewrite IH |].
  rewrite IH. by reassoc.
Qed.

Lemma hits_app ps qs : hits (ps ++ qs) = hits ps + hits qs.
Proof. induction ps as [|[c|m] ps IH]; simpl; [done | done | by rewrite IH]. Qed.

Lemma locate_gaps pos (t : text) ps :
  locate pos ((Gap <$> t) ++ ps) = locate (pos + length t) ps.
Proof.
  revert pos. induction t as [|c t IH]; intros pos.
  - by rewrite Nat.add_0_r.
  - change (locate (S pos) ((Gap <$> t) ++ ps) = locate (pos + S (length t)) ps).
    rewrite IH. f_equal. lia.
Qed.

Lemma scan_no_hits s : hits (scan s) = 0 → scan s = Gap <$> s.
Proof.
  induction s as [|c s E IH|m r Ha IH] using scan_ind.
  - done.
  - rewrite scan_gap by done. cbn [hits]. intros H. by rewrite IH.
  - by rewrite scan_anchor.
Qed.

Lemma scan_no_occurrences s : occurrences s = [] → scan s = Gap <$> s.
Proof.
  intros H. apply scan_no_hits. rewrite <- (hits_locate 0). fold (occurrences s).
  by rewrite H.
Qed.

(** A text either has no match, or has a first one; the patch leaves
    everything up to its end as it is. *)
Lemma splice_first_hit r s :
  scan s = Gap <$> s ∨
  ∃ pre m rest, is_anchor m ∧ s = pre ++ m ++ rest ∧
    splice r (scan s) = pre ++ m ++ r ++ splice r (scan rest).
Proof.
  induction s as [|c s E IH|m t Ha IH] using scan_ind.
  - by left.
  - rewrite scan_gap by done. cbn [splice].
    destruct IH as [->|(pre & m & rest & Ha & -> & ->)].
    + by left.
    + right. by exists (c :: pre), m, rest.
  - right. exists [], m, t. by rewrite scan_anchor.
Qed.

(** The scan of a patched text finds the matches of the original text,
    and copies the insertions. *)
Lemma scan_patched s : scan (splice insertion (scan s)) = restamp (scan s).
Proof.
  induction s as [|c s E IH|m t Ha IH] using scan_ind.
  - done.
  - rewrite scan_gap by done. cbn [splice restamp]. rewrite scan_gap, IH; [done|].
    destruct (splice_first_hit insertion s) as [->|(pre & m & rest & Ha & -> & ->)].
    + by rewrite splice_gaps.
    + by apply (match_here_stable (c :: pre) m rest).
  - rewrite scan_anchor by done. cbn [splice restamp].
    by rewrite scan_anchor, scan_insertion, IH.
Qed.

Lemma splice_restamp r ps : splice r (restamp ps) = splice (r ++ insertion) ps.
Proof.
  induction ps as [|[c|m] ps IH]; cbn [splice restamp]; [done | by rewrite IH |].
  rewrite splice_app, splice_gaps, IH. by reassoc.
Qed.

Lemma hits_restamp ps : hits (restamp ps) = hits ps.
Proof.
  induction ps as [|[c|m] ps IH]; cbn [hits restamp]; [done | done |].
  by rewrite hits_app, hits_gaps, IH.
Qed.

Lemma locate_restamp ps pos shift k i m :
  locate pos ps !! k = Some (i, m) →
  locate (pos + shift) (restamp ps) !! k
  = Some (i + shift + k * length insertion, m).
Proof.
  revert pos shift k. induction ps as [|[c|m0] ps IH]; intros pos shift k;
    cbn [locate restamp].
  - done.
  - intros H. by apply (IH (S pos)).
  - destruct k as [|k]; cbn [lookup list_lookup].
    + intros [= -> ->]. do 2 f_equal. lia.
    + intros H. rewrite locate_gaps.
      apply (IH _ (shift + length insertion)) in H.
      replace (pos + shift + length m0 + length insertion)
        with (pos + length m0 + (shift + length insertion)) by lia.
      etrans; [exact H|]. do 2 f_equal. lia.
Qed.

Lemma insertion_nonempty : length insertion ≠ 0.
Proof. done. Qed.

(** C5: the patch is not idempotent.  On a text with at least one
    occurrence of the marker expression, the patched text still has every
    occurrence (the same anchors, each moved right by the insertions before
    it), a second application reports the same count, and its output
    differs from the first: each anchor is followed by two copies of the
    insertion, one after the other. *)
Theorem patch_twice_stacks (s : text) :
  occurrences s ≠ [] →
  let once := (patch s).1 in
  let twice := (patch once).1 in
  twice ≠ once ∧
  (patch once).2 = (patch s).2 ∧
  ∀ k i m, occurrences s !! k = Some (i, m) →
    occurrences once !! k = Some (i + k * length insertion, m) ∧
    occurs_at (m ++ insertion ++ insertion)
      (i + k * (2 * length insertion)) twice.
Proof.
  intros Hocc once twice. subst once twice.
  rewrite !patch_scan. cbn [fst snd]. rewrite scan_patched.
  rewrite splice_restamp, hits_restamp. split_and!.
  - intros E. apply (f_equal length) in E.
    rewrite (length_splice (insertion ++ insertion)),
      (length_splice insertion), length_app in E.
    assert (hits (scan s) ≠ 0).
    { rewrite <- (hits_locate 0). fold (occurrences s). by destruct (occurrences s). }
    pose proof insertion_nonempty. nia.
  - done.
  - intros k i m H. split.
    + apply (locate_restamp _ 0 0) in H. unfold occurrences.
      rewrite scan_patched. etrans; [exact H|]. do 2 f_equal. lia.
    + apply (occurrences_output (insertion ++ insertion)) in H.
      rewrite length_app in H.
      by replace (i + k * (2 * length insertion))
        with (i + k * (length insertion + length insertion)) by lia.
Qed.

(** ** An anchor with an empty value *)

(** C10: the statement with an empty value, the key and an equals sign
    followed by two double quotes and a semicolon, is no match; wherever it
    stands, the patch copies it without an insertion after it and without
    counting it: the text before it and the text after it are patched as if
    each stood alone. *)
Theorem empty_value_not_matched (pre rest : text) :
  match_here pattern (empty_anchor ++ rest) = None ∧
  patch empty_anchor = (empty_anchor, 0) ∧
  patch (pre ++ empty_anchor ++ rest)
  = ((patch pre).1 ++ empty_anchor ++ (patch rest).1,
     (patch pre).2 + (patch rest).2).
Proof.
  assert (∀ p r : text, scan (p ++ empty_anchor ++ r)
            = scan p ++ (Gap <$> empty_anchor) ++ scan r) as Hscan.
  { intros p r. rewrite <- scan_empty_anchor. unfold empty_anchor.
    replace ((marker_key ++ [dq; dq; ";"%char]) ++ r)
      with (marker_key ++ dq :: dq :: ";"%char :: r) by by reassoc.
    by apply scan_app_key. }
  split_and!.
  - apply match_here_empty_anchor.
  - rewrite patch_scan. pose proof (Hscan [] []) as H.
    rewrite app_nil_r in H. cbn [app] in H. rewrite scan_nil, app_nil_r in H.
    cbn [app] in H. by rewrite H, splice_gaps, hits_gaps.
  - rewrite !patch_scan. cbn [fst snd].
    by rewrite Hscan, !splice_app, !hits_app, splice_gaps, hits_gaps.
Qed.


(** ** Indentation of the inserted lines *)

Lemma insertion_lines :
  insertion = [nl] ++ usage_line ++ [nl] ++ full_access_line.
Proof. reflexivity. Qed.

Lemma indent_usage_line X : indent_of (usage_line ++ X) = four_tabs.
Proof.
  assert (∃ t, usage_line = tab :: tab :: tab :: tab :: "I"%char :: t) as [t ->]
    by (by eexists).
  reflexivity.
Qed.

Lemma indent_full_access_line X : indent_of (full_access_line ++ X) = four_tabs.
Proof.
  assert (∃ t, full_access_line = tab :: tab :: tab :: tab :: "I"%char :: t) as [t ->]
    by (by eexists).
  reflexivity.
Qed.

Lemma inserted_indents_four_tabs (s : text) (k i : nat) (m : text) :
  occurrences s !! k = Some (i, m) →
  inserted_indents s k i m = (four_tabs, four_tabs).
Proof.
  intros H. apply (occurrences_output insertion) in H.
  apply occurs_at_split in H as (A & B & Hout & HA).
  - unfold inserted_indents. rewrite patch_scan. cbn [fst]. rewrite Hout, <- HA.
    rewrite insertion_lines. f_equal.
    + replace (A ++ (m ++ [nl] ++ usage_line ++ [nl] ++ full_access_line) ++ B)
        with ((A ++ m ++ [nl]) ++ usage_line ++ ([nl] ++ full_access_line ++ B))
        by by reassoc.
      rewrite drop_app_length'; [apply indent_usage_line|].
      rewrite !length_app. simpl. lia.
    + replace (A ++ (m ++ [nl] ++ usage_line ++ [nl] ++ full_access_line) ++ B)
        with ((A ++ m ++ [nl] ++ usage_line ++ [nl]) ++ full_access_line ++ B)
        by by reassoc.
      rewrite drop_app_length'; [apply indent_full_access_line|].
      rewrite !length_app. simpl. lia.
  - intros E. apply (f_equal length) in E. rewrite length_app in E.
    pose proof insertion_nonempty. simpl in E. lia.
Qed.

(** C9, as stated, fails: the line of the anchor can be indented by two
    spaces, and the two inserted lines are then still indented by four
    tabs. *)
Lemma inserted_lines_indent_counterexample :
  occurrences two_space_line !! 0 = Some (2, portrait_line) ∧
  line_indent two_space_line 2 = T "  " ∧
  inserted_indents two_space_line 0 2 portrait_line = (four_tabs, four_tabs) ∧
  inserted_indents two_space_line 0 2 portrait_line
  ≠ (line_indent two_space_line 2, line_indent two_space_line 2).
Proof. vm_compute. split_and!; try reflexivity. discriminate. Qed.

(** C9, amended: after every occurrence the two inserted lines are each
    indented by exactly four tabs, a constant of the script that does not
    depend on the input; they have the indentation of the anchor line
    exactly when that line is indented by four tabs. *)
Theorem inserted_lines_indented_by_four_tabs (s : text) (k i : nat) (m : text) :
  occurrences s !! k = Some (i, m) →
  inserted_indents s k i m = (four_tabs, four_tabs) ∧
  (inserted_indents s k i m = (line_indent s i, line_indent s i)
   ↔ line_indent s i = four_tabs).
Proof.
  intros H. rewrite (inserted_indents_four_tabs _ _ _ _ H). split; [done|].
  split; [by intros [= <-] | by intros ->].
Qed.

(** ** The portrait-only scenario *)

Lemma portrait_line_anchor : is_anchor portrait_line.
Proof.
  exists (T "UIInterfaceOrientationPortrait"). split_and!; [done | | done].
  apply (bool_decide_unpack _). by vm_compute.
Qed.

Lemma patch_portrait (pre post : text) :
  occurrences pre = [] → occurrences post = [] →
  patch (pre ++ portrait_line ++ post)
  = (pre ++ portrait_line ++ [nl] ++ usage_line ++ [nl] ++ full_access_line ++ post, 1).
Proof.
  intros Hpre Hpost.
  assert (scan (pre ++ portrait_line ++ post)
          = (Gap <$> pre) ++ Hit portrait_line :: (Gap <$> post)) as Hscan.
  { rewrite <- (scan_no_occurrences pre), <- (scan_no_occurrences post) by done.
    rewrite <- scan_anchor by apply portrait_line_anchor.
    unfold portrait_line.
    replace ((marker_key ++ [dq] ++ T "UIInterfaceOrientationPortrait"
                ++ [dq; ";"%char]) ++ post)
      with (marker_key ++ dq :: "U"%char
              :: T "IInterfaceOrientationPortrait" ++ [dq; ";"%char] ++ post)
      by by reassoc.
    by apply scan_app_key. }
  rewrite patch_scan, Hscan, splice_app, hits_app. cbn [splice hits].
  rewrite !splice_gaps, !hits_gaps, insertion_lines. f_equal; by reassoc.
Qed.

(** ** The script and the file system *)

Local Arguments patch : simpl never.

Lemma length_append (a b : string) :
  String.length (a +:+ b) = String.length a + String.length b.
Proof. induction a as [|c a IH]; simpl; [done | by rewrite IH]. Qed.

Lemma backup_path_fresh (p : string) : p ≠ p +:+ ".backup".
Proof.
  intros E. apply (f_equal String.length) in E.
  rewrite length_append in E. simpl in E. lia.
Qed.

Lemma patch_count s : (patch s).2 = length (occurrences s).
Proof. rewrite patch_scan. unfold occurrences. by rewrite hits_locate. Qed.

Section ScriptProperties.

Variable decode : list Byte.byte → option text.
Variable encode : text → option (list Byte.byte).

Lemma backup_path_fresh' (p : string) : p +:+ ".backup" ≠ p.
Proof. intros E. by apply (backup_path_fresh p). Qed.

Ltac run_script_step :=
  unfold run_script, main, add_calendar_permissions, write_text, read_text,
    copy2, path_exists, print, bind, ret, raise;
  cbn [files trace store emit].

Ltac lookup_files :=
  cbn [files trace store emit];
  repeat first
    [ rewrite lookup_insert_eq
    | rewrite lookup_insert_ne by first [apply backup_path_fresh | apply backup_path_fresh'] ].

Ltac new_events_list :=
  unfold new_events; cbn [files trace store emit];
  rewrite <- ?app_assoc; rewrite drop_app_length; cbn [app].

(** The runs of the script, by what it finds. *)
Lemma run_script_cases (w : world) :
  let bk := project_path +:+ ".backup" in
  match files w !! project_path with
  | None => ∃ w', run_script decode encode w = (1%Z, w') ∧ files w' = files w
  | Some b =>
      match decode b with
      | None =>
          ∃ w', run_script decode encode w = (1%Z, w')
                ∧ files w' = <[bk := b]> (files w)
      | Some t =>
          if decide (occurrences t = []) then
            ∃ w', run_script decode encode w = (1%Z, w')
                  ∧ files w' = <[bk := b]> (files w)
          else
            match encode (patch t).1 with
            | None =>
                ∃ w', run_script decode encode w = (1%Z, w')
                      ∧ files w' = <[project_path := []]> (<[bk := b]> (files w))
            | Some out =>
                ∃ w', run_script decode encode w = (0%Z, w')
                      ∧ files w' = <[project_path := out]>
                                     (<[project_path := []]> (<[bk := b]> (files w)))
            end
      end
  end.
Proof.
  intros bk. subst bk. run_script_step.
  destruct (files w !! project_path) as [b|] eqn:Hb.
  - rewrite bool_decide_true by eauto.
    repeat first
      [ progress cbn [files trace store emit negb]
      | rewrite Hb
      | rewrite bool_decide_false by apply backup_path_fresh
      | rewrite lookup_insert_ne by apply backup_path_fresh' ].
    destruct (decode b) as [t|]; [|by eexists].
    pose proof (patch_count t) as Hn.
    destruct (patch t) as [out n]. cbn [fst snd] in *.
    case_decide as Hocc.
    + rewrite Hocc in Hn. cbn [length] in Hn. subst n. cbn [Nat.eqb]. by eexists.
    + destruct n as [|n]; [by destruct (occurrences t)|]. cbn [Nat.eqb].
      destruct (encode out) as [bytes|]; by eexists.
  - rewrite bool_decide_false by (by intros [? ?]). cbn [negb]. by eexists.
Qed.

(** C3: when the target exists, whatever else happens in the call (also
    when reading or writing the target fails), the first effect of the
    call is the copy of the target to the path with .backup added (so the
    target has not been changed before it), nothing after it changes the
    backup, and at the end the backup holds the bytes the target had
    before the call, whatever was at the backup path before. *)
Theorem backup_holds_original (path : string) (w : world) (b : list Byte.byte) :
  files w !! path = Some b →
  ∃ o w' rest,
    add_calendar_permissions decode encode path w = (o, w') ∧
    files w' !! (path +:+ ".backup") = Some b ∧
    new_events w w' = Copied path (path +:+ ".backup") :: rest ∧
    Forall (λ e, mutates (path +:+ ".backup") e = false) rest.
Proof.
  intros Hb. run_script_step. rewrite Hb.
  rewrite bool_decide_false by apply backup_path_fresh. lookup_files. rewrite Hb.
  destruct (decode b) as [t|].
  - destruct (patch t) as [out n]. destruct (n =? 0).
    + eexists _, _, _. split; [reflexivity|]. split_and!.
      * by lookup_files.
      * new_events_list. reflexivity.
      * repeat constructor.
    + destruct (encode out) as [bytes|].
      * eexists _, _, _. split; [reflexivity|]. split_and!.
        -- by lookup_files.
        -- new_events_list. reflexivity.
        -- repeat constructor; cbn [mutates]; by rewrite bool_decide_false by apply backup_path_fresh.
      * eexists _, _, _. split; [reflexivity|]. split_and!.
        -- by lookup_files.
        -- new_events_list. reflexivity.
        -- repeat constructor; cbn [mutates]; by rewrite bool_decide_false by apply backup_path_fresh.
  - eexists _, _, _. split; [reflexivity|]. split_and!.
    + by lookup_files.
    + new_events_list. reflexivity.
    + repeat constructor.
Qed.

(** C2: when the target exists and is read, and the text has no
    occurrence of the marker expression, the function returns False, the
    target still has its bytes and no effect of the call touched it, and
    the backup has been written with those bytes: the backup is the only
    difference in the file system. *)
Theorem no_match_keeps_file (path : string) (w : world)
    (b : list Byte.byte) (t : text) :
  files w !! path = Some b → decode b = Some t → occurrences t = [] →
  ∃ w',
    add_calendar_permissions decode encode path w = (Ret false, w') ∧
    files w' !! path = Some b ∧
    files w' !! (path +:+ ".backup") = Some b ∧
    files w' = <[path +:+ ".backup" := b]> (files w) ∧
    Forall (λ e, mutates path e = false) (new_events w w').
Proof.
  intros Hb Ht Hocc. run_script_step. rewrite Hb.
  rewrite bool_decide_false by apply backup_path_fresh. lookup_files.
  rewrite Hb, Ht.
  pose proof (patch_count t) as Hn. rewrite Hocc in Hn.
  destruct (patch t) as [out n]. cbn [snd length] in Hn. subst n. cbn [Nat.eqb].
  eexists. split; [reflexivity|]. split_and!.
  - lookup_files. done.
  - by lookup_files.
  - done.
  - new_events_list.
    repeat constructor. cbn [mutates]. by rewrite bool_decide_false by apply backup_path_fresh'.
Qed.

(** C7: when the target path does not exist, the script exits with
    status 1, the file system is as it was (no backup, no file written),
    and all the script has done is print. *)
Theorem missing_target_changes_nothing (w : world) :
  files w !! project_path = None →
  ∃ w',
    run_script decode encode w = (1%Z, w') ∧
    files w' = files w ∧
    files w' !! (project_path +:+ ".backup") = files w !! (project_path +:+ ".backup") ∧
    Forall (λ e, ∃ msg, e = Printed msg) (new_events w w').
Proof.
  intros Hnone. run_script_step. rewrite Hnone.
  rewrite bool_decide_false by (by intros [? ?]). cbn [negb exit_status].
  eexists. split; [reflexivity|]. split_and!; [done | done |].
  new_events_list. repeat constructor; by eexists.
Qed.

(** C6: the exit status is 0 or 1.  It is 0 exactly when the target is
    found and read, at least one occurrence of the marker expression is
    matched, and the patched text is written; the backup then holds the
    original bytes and the target the patched ones.  It is 1 when the
    target is missing, when nothing matches (the target is then not
    rewritten), and when reading or writing fails. *)
Theorem exit_status_zero_iff (w : world) :
  let r := run_script decode encode w in
  (r.1 = 0 ∨ r.1 = 1)%Z ∧
  (r.1 = 0%Z ↔
     ∃ b t out,
       files w !! project_path = Some b ∧ decode b = Some t ∧
       1 ≤ length (occurrences t) ∧ encode (patch t).1 = Some out ∧
       files r.2 !! (project_path +:+ ".backup") = Some b ∧
       files r.2 !! project_path = Some out) ∧
  (files w !! project_path = None → r.1 = 1%Z) ∧
  (∀ b t, files w !! project_path = Some b → decode b = Some t →
          occurrences t = [] →
          r.1 = 1%Z ∧ files r.2 !! project_path = Some b) ∧
  (∀ b, files w !! project_path = Some b → decode b = None → r.1 = 1%Z) ∧
  (∀ b t, files w !! project_path = Some b → decode b = Some t →
          encode (patch t).1 = None → r.1 = 1%Z).
Proof.
  intros r. subst r. pose proof (run_script_cases w) as H. cbv zeta in H.
  destruct (files w !! project_path) as [b|] eqn:Hb.
  - destruct (decode b) as [t|] eqn:Ht.
    + case_decide as Hocc.
      * destruct H as (w' & -> & Hf). cbn [fst snd]. split_and!.
        -- by right.
        -- split; [done|]. intros (b' & t' & ? & Hb' & Ht' & Hlen & _).
           assert (b' = b) as -> by congruence.
           assert (t' = t) as -> by congruence.
           rewrite Hocc in Hlen. simpl in Hlen. lia.
        -- done.
        -- intros b' ? Hb' _ _. assert (b' = b) as -> by congruence.
           split; [done|]. rewrite Hf. by lookup_files.
        -- done.
        -- done.
      * destruct (encode (patch t).1) as [out|] eqn:Hout.
        -- destruct H as (w' & -> & Hf). cbn [fst snd]. split_and!.
           ++ by left.
           ++ split; [intros _|done]. exists b, t, out. split_and!; try done.
              ** destruct (occurrences t); [done | simpl; lia].
              ** rewrite Hf. by lookup_files.
              ** rewrite Hf. by lookup_files.
           ++ done.
           ++ intros b' t' Hb' Ht' ?. assert (b' = b) as -> by congruence.
              assert (t' = t) as -> by congruence. done.
           ++ intros b' Hb' ?. assert (b' = b) as -> by congruence. congruence.
           ++ intros b' t' Hb' Ht' ?. assert (b' = b) as -> by congruence.
              assert (t' = t) as -> by congruence. congruence.
        -- destruct H as (w' & -> & Hf). cbn [fst snd]. split_and!.
           ++ by right.
           ++ split; [done|]. intros (b' & t' & ? & Hb' & Ht' & _ & ? & _).
              assert (b' = b) as -> by congruence.
              assert (t' = t) as -> by congruence. congruence.
           ++ done.
           ++ intros b' t' Hb' Ht' ?. assert (b' = b) as -> by congruence.
              assert (t' = t) as -> by congruence. done.
           ++ done.
           ++ done.
    + destruct H as (w' & -> & Hf). cbn [fst snd]. split_and!.
      * by right.
      * split; [done|]. intros (b' & ? & ? & Hb' & ? & _).
        assert (b' = b) as -> by congruence. congruence.
      * done.
      * intros b' ? Hb' ?. assert (b' = b) as -> by congruence. congruence.
      * done.
      * done.
  - destruct H as (w' & -> & Hf). cbn [fst snd]. split_and!; try done.
    + by right.
    + split; [done|]. intros (? & ? & ? & [=] & _).
Qed.

(** C8: a project file with one block, the line of the portrait-only
    orientation in it and no other occurrence of the marker expression
    before or after.  The patched text is the text before the line, that
    exact line, a line feed, the two fixed assignment lines with the
    documented descriptions, separated by a line feed, and the text after
    the line; the reported count is 1; the script writes the patched text
    to the project file and exits with status 0. *)
Theorem portrait_scenario (pre post : text) (w : world)
    (b out : list Byte.byte) :
  occurrences pre = [] → occurrences post = [] →
  files w !! project_path = Some b →
  decode b = Some (pre ++ portrait_line ++ post) →
  encode (pre ++ portrait_line ++ [nl] ++ usage_line ++ [nl]
            ++ full_access_line ++ post) = Some out →
  patch (pre ++ portrait_line ++ post)
  = (pre ++ portrait_line ++ [nl] ++ usage_line ++ [nl]
       ++ full_access_line ++ post, 1) ∧
  ∃ w', run_script decode encode w = (0%Z, w') ∧
        files w' !! project_path = Some out.
Proof.
  intros Hpre Hpost Hb Ht Hout.
  pose proof (patch_portrait pre post Hpre Hpost) as Hp. split; [done|].
  pose proof (run_script_cases w) as H. cbv zeta in H.
  rewrite Hb, Ht in H. case_decide as Hocc.
  - pose proof (patch_count (pre ++ portrait_line ++ post)) as Hn.
    rewrite Hp, Hocc in Hn. done.
  - rewrite Hp in H. cbn [fst] in H. rewrite Hout in H.
    destruct H as (w' & Hrun & Hf). exists w'. split; [done|].
    rewrite Hf. by lookup_files.
Qed.

End ScriptProperties.

(** ** The properties at concrete inputs *)

Lemma patch_inserts_after_every_occurrence_witness :
  length (occurrences sample_project) = 3 ∧ 1 ≤ 3 ∧
  (patch sample_project).2 = 3.
Proof.
  split; [by vm_compute|]. split; [lia|].
  apply (patch_inserts_after_every_occurrence sample_project 3);
    [by vm_compute | lia].
Defined.

Lemma patch_twice_stacks_witness :
  occurrences sample_project ≠ [] ∧
  (patch (patch sample_project).1).1 ≠ (patch sample_project).1.
Proof.
  assert (occurrences sample_project ≠ []) as H by (by vm_compute).
  split; [exact H|]. apply (patch_twice_stacks sample_project H).
Defined.

Lemma inserted_lines_indented_by_four_tabs_witness :
  occurrences two_space_line !! 0 = Some (2, portrait_line) ∧
  inserted_indents two_space_line 0 2 portrait_line = (four_tabs, four_tabs).
Proof.
  assert (occurrences two_space_line !! 0 = Some (2, portrait_line)) as H
    by (by vm_compute).
  split; [exact H|].
  apply (inserted_lines_indented_by_four_tabs two_space_line 0 2 portrait_line H).
Defined.

Lemma no_match_keeps_file_witness :
  files (project_world no_marker_text) !! project_path
    = Some (byte_of_ascii <$> no_marker_text) ∧
  latin1_decode (byte_of_ascii <$> no_marker_text) = Some no_marker_text ∧
  occurrences no_marker_text = [] ∧
  ∃ w', add_calendar_permissions latin1_decode latin1_encode project_path
          (project_world no_marker_text) = (Ret false, w')
        ∧ files w' !! project_path = Some (byte_of_ascii <$> no_marker_text).
Proof.
  assert (files (project_world no_marker_text) !! project_path
          = Some (byte_of_ascii <$> no_marker_text)) as Hb by (by vm_compute).
  assert (latin1_decode (byte_of_ascii <$> no_marker_text) = Some no_marker_text)
    as Ht by (by vm_compute).
  assert (occurrences no_marker_text = []) as Hocc by (by vm_compute).
  split_and!; [exact Hb | exact Ht | exact Hocc |].
  destruct (no_match_keeps_file latin1_decode latin1_encode project_path
              (project_world no_marker_text) _ _ Hb Ht Hocc)
    as (w' & Hrun & Hfile & _).
  by exists w'.
Defined.

Lemma backup_holds_original_witness :
  files (stale_backup_world sample_block) !! project_path
    = Some (byte_of_ascii <$> sample_block) ∧
  ∃ o w', add_calendar_permissions latin1_decode latin1_encode project_path
            (stale_backup_world sample_block) = (o, w')
          ∧ files w' !! (project_path +:+ ".backup")
            = Some (byte_of_ascii <$> sample_block).
Proof.
  assert (files (stale_backup_world sample_block) !! project_path
          = Some (byte_of_ascii <$> sample_block)) as Hb by (by vm_compute).
  split; [exact Hb|].
  destruct (backup_holds_original latin1_decode latin1_encode project_path
              (stale_backup_world sample_block) _ Hb)
    as (o & w' & rest & Hrun & Hfile & _).
  by exists o, w'.
Defined.

Lemma missing_target_changes_nothing_witness :
  files empty_world !! project_path = None ∧
  ∃ w', run_script latin1_decode latin1_encode empty_world = (1%Z, w')
        ∧ files w' = files empty_world.
Proof.
  assert (files empty_world !! project_path = None) as Hb by (by vm_compute).
  split; [exact Hb|].
  destruct (missing_target_changes_nothing latin1_decode latin1_encode
              empty_world Hb) as (w' & Hrun & Hfiles & _).
  by exists w'.
Defined.

Lemma portrait_scenario_witness :
  occurrences block_head = [] ∧ occurrences block_tail = [] ∧
  (patch sample_block).2 = 1 ∧
  ∃ w', run_script latin1_decode latin1_encode
          (project_world sample_block) = (0%Z, w').
Proof.
  assert (occurrences block_head = []) as Hpre by (by vm_compute).
  assert (occurrences block_tail = []) as Hpost by (by vm_compute).
  assert (files (project_world sample_block)
            !! project_path
          = Some (byte_of_ascii <$> sample_block))
    as Hb by (by vm_compute).
  assert (latin1_decode (byte_of_ascii <$> sample_block)
          = Some sample_block)
    as Ht by (by vm_compute).
  split_and!; [exact Hpre | exact Hpost | |].
  - destruct (portrait_scenario latin1_decode latin1_encode block_head block_tail
                _ _ _ Hpre Hpost Hb Ht eq_refl) as [Hp _].
    unfold sample_block. by rewrite Hp.
  - destruct (portrait_scenario latin1_decode latin1_encode block_head block_tail
                _ _ _ Hpre Hpost Hb Ht eq_refl) as [_ (w' & Hrun & _)].
    by exists w'.
Defined.

Example exit_status_samples :
  (run_script latin1_decode latin1_encode (project_world sample_project)).1 = 0%Z ∧
  (run_script latin1_decode latin1_encode (project_world no_marker_text)).1 = 1%Z ∧
  (run_script latin1_decode latin1_encode empty_world).1 = 1%Z.
Proof. by vm_compute. Qed.

Example patch_samples :
  (patch sample_project).2 = 3 ∧
  (patch empty_anchor).2 = 0 ∧
  (fst <$> occurrences sample_project) = [25; 146; 267] ∧
  (fst <$> occurrences (patch sample_project).1) = [25; 439; 853].
Proof. by vm_compute. Qed.

(** * Further properties of the script *)

(** ** The expression and the scan *)

(** The expression matches at the start of a text exactly when the text
    starts with an anchor, and the match is then that anchor, neither
    shorter nor longer: giving characters back never finds another match.
    The value may hold any character but the double quote, line feeds
    included. *)
Theorem pattern_matches_anchors_exactly (s m r : text) :
  match_here pattern s = Some (m, r) ↔ is_anchor m ∧ s = m ++ r.
Proof.
  split.
  - apply match_here_sound.
  - intros [Ha ->]. by apply match_here_complete.
Qed.

(** An anchor at the start of a text gets the insertion whatever follows
    it, and what follows is patched as if it stood alone. *)
Theorem patch_anchor_then_rest (m rest : text) :
  is_anchor m →
  patch (m ++ rest)
  = (m ++ [nl] ++ calendar_keys ++ (patch rest).1, S (patch rest).2).
Proof.
  intros Ha. rewrite !patch_scan, scan_anchor by done. cbn [splice hits fst snd].
  unfold insertion. by reassoc.
Qed.

(** A text is left as it is, and no insertion is counted, exactly when
    no anchor stands anywhere in it: the function reports failure on no
    text that holds an anchor. *)
Theorem patch_fails_iff_no_anchor (s : text) :
  ((patch s).2 = 0 ↔ ∀ a j, is_anchor a → ¬ occurs_at a j s) ∧
  ((patch s).2 = 0 ↔ (patch s).1 = s).
Proof.
  rewrite patch_count. split; split.
  - intros Hlen a j Ha Hj.
    destruct (occurrences_cover s a j Ha Hj) as (k & i & m & Hk & _).
    apply nil_length_inv in Hlen. by rewrite Hlen in Hk.
  - intros Hno. destruct (occurrences s) as [|[i m] occ] eqn:E; [done|].
    assert (occurrences s !! 0 = Some (i, m)) as Hk by by rewrite E.
    destruct (Hno m i); [by eapply occurrences_anchor | by eapply occurrences_input].
  - intros Hlen%nil_length_inv. rewrite patch_scan. cbn [fst].
    by rewrite (scan_no_occurrences s Hlen), splice_gaps.
  - intros E. apply (f_equal length) in E.
    rewrite patch_scan in E. cbn [fst] in E.
    rewrite (length_splice insertion), splice_scan_id in E.
    unfold occurrences. rewrite hits_locate.
    pose proof insertion_nonempty. nia.
Qed.

Lemma patch_same_no_hits (s : text) :
  (patch s).1 = s → (patch s).2 = 0.
Proof.
  intros E. apply (f_equal length) in E.
  rewrite patch_scan in *. cbn [fst snd] in *.
  rewrite (length_splice insertion), splice_scan_id in E.
  pose proof insertion_nonempty. nia.
Qed.

(** ** The function and the files *)

Section ScriptExtras.

Variable decode : list Byte.byte → option text.
Variable encode : text → option (list Byte.byte).

(** The call on an existing target, written out: the world after the
    backup, and then one of four ends. *)
Lemma acp_run (path : string) (w : world) (b : list Byte.byte) :
  files w !! path = Some b →
  let bk := path +:+ ".backup" in
  let w1 := emit (Printed ("✓ Created backup at: " +:+ bk))
              (emit (Copied path bk) (store bk b w)) in
  let w2 := emit (Truncated path) (store path [] w1) in
  add_calendar_permissions decode encode path w
  = match decode b with
    | None => (Raise UnicodeDecodeError, w1)
    | Some t =>
        if Nat.eqb (patch t).2 0 then
          (Ret false,
           emit (Printed "   The project structure might be different than expected.")
             (emit (Printed "❌ Could not find the expected pattern in the project file.")
                w1))
        else
          match encode (patch t).1 with
          | None => (Raise UnicodeEncodeError, w2)
          | Some out =>
              (Ret true,
               emit (Printed "   - NSCalendarsFullAccessUsageDescription")
                 (emit (Printed "   - NSCalendarsUsageDescription")
                    (emit (Printed (String nl "📝 Added keys:"))
                       (emit (Printed ("✓ Added calendar permissions to "
                                       +:+ pretty (patch t).2
                                       +:+ " build configuration(s)"))
                          (emit (Wrote path out) (store path out w2))))))
          end
    end.
Proof.
  intros Hb bk w1 w2. subst bk w1 w2.
  unfold add_calendar_permissions, write_text, read_text, copy2, print, bind, ret.
  rewrite Hb. rewrite bool_decide_false by apply backup_path_fresh.
  cbn [files trace store emit].
  rewrite lookup_insert_ne by (intros E; by apply (backup_path_fresh path)).
  rewrite Hb. destruct (decode b) as [t|]; [|done].
  destruct (patch t) as [out n]. cbn [fst snd].
  destruct (n =? 0); [done|]. by destruct (encode out).
Qed.

Ltac events_since :=
  unfold new_events; cbn [files trace store emit];
  rewrite <- ?app_assoc; rewrite drop_app_length; cbn [app].

(** Called on a path that does not exist, the function raises
    FileNotFoundError from the copy, before it prints or writes anything:
    the world is as it was. *)
Theorem missing_path_raises (path : string) (w : world) :
  files w !! path = None →
  add_calendar_permissions decode encode path w = (Raise FileNotFoundError, w).
Proof.
  intros Hnone. unfold add_calendar_permissions, copy2, bind. by rewrite Hnone.
Qed.

(** Whatever the call does, it leaves every file other than the target
    and its backup as it was, and it removes no file. *)
Theorem touches_only_target_and_backup (path : string) (w : world) :
  let w' := (add_calendar_permissions decode encode path w).2 in
  (∀ q, q ≠ path → q ≠ path +:+ ".backup" → files w' !! q = files w !! q) ∧
  (∀ q, is_Some (files w !! q) → is_Some (files w' !! q)).
Proof.
  intros w'. subst w'. destruct (files w !! path) as [b|] eqn:Hb.
  - rewrite (acp_run path w b Hb). cbv zeta.
    destruct (decode b) as [t|]; [destruct (Nat.eqb (patch t).2 0);
      [|destruct (encode (patch t).1)]|];
      cbn [snd files trace store emit]; split; intros q;
      rewrite ?lookup_insert; repeat case_decide; subst; eauto; done.
  - unfold add_calendar_permissions, copy2, bind. rewrite Hb. done.
Qed.

(** When the bytes of the target cannot be read as text, the function
    raises UnicodeDecodeError after the backup has been made: the target
    still has its bytes, and the backup is the only change. *)
Theorem read_failure_keeps_target (path : string) (w : world) (b : list Byte.byte) :
  files w !! path = Some b → decode b = None →
  ∃ w', add_calendar_permissions decode encode path w
        = (Raise UnicodeDecodeError, w') ∧
        files w' = <[path +:+ ".backup" := b]> (files w) ∧
        files w' !! path = Some b.
Proof.
  intros Hb Hd. rewrite (acp_run path w b Hb). cbv zeta. rewrite Hd.
  eexists. split; [reflexivity|]. cbn [files trace store emit]. split; [done|].
  rewrite lookup_insert_ne; [done|]. intros E. by apply (backup_path_fresh path).
Qed.


(** When at least one anchor is found and the patched text is written,
    the function returns True; the target holds the patched text, the
    backup the original bytes, every other file is as it was; and the line
    it prints about the build configurations gives the number of
    occurrences in the text. *)
Theorem success_reports_count (path : string) (w : world)
    (b out : list Byte.byte) (t : text) :
  files w !! path = Some b → decode b = Some t → occurrences t ≠ [] →
  encode (patch t).1 = Some out →
  ∃ w', add_calendar_permissions decode encode path w = (Ret true, w') ∧
        files w' = <[path := out]> (<[path +:+ ".backup" := b]> (files w)) ∧
        Printed ("✓ Added calendar permissions to "
                 +:+ pretty (length (occurrences t))
                 +:+ " build configuration(s)") ∈ new_events w w'.
Proof.
  intros Hb Hd Hocc He. rewrite (acp_run path w b Hb). cbv zeta. rewrite Hd, He.
  rewrite !patch_count. destruct (occurrences t) as [|o occ] eqn:E; [done|].
  cbn [length Nat.eqb]. eexists. split; [reflexivity|]. split.
  - cbn [files trace store emit]. by rewrite insert_insert_eq.
  - events_since. do 4 apply list_elem_of_further. apply list_elem_of_here.
Qed.

(** The backup undoes the call: whatever the call did to an existing
    target, copying the backup over the target afterwards gives back the
    files as they were before the call, with the backup beside them. *)
Theorem backup_restores_original (path : string) (w : world) (b : list Byte.byte) :
  files w !! path = Some b →
  ∃ w'', copy2 (path +:+ ".backup") path
           (add_calendar_permissions decode encode path w).2 = (Ret tt, w'') ∧
         files w'' = <[path +:+ ".backup" := b]> (files w) ∧
         files w'' !! path = Some b.
Proof.
  intros Hb.
  assert (∀ w' : world,
            files w' !! (path +:+ ".backup") = Some b →
            (∀ q, q ≠ path → files w' !! q = (<[path +:+ ".backup" := b]> (files w)) !! q) →
            ∃ w'', copy2 (path +:+ ".backup") path w' = (Ret tt, w'') ∧
                   files w'' = <[path +:+ ".backup" := b]> (files w) ∧
                   files w'' !! path = Some b) as Hcopy.
  { intros w' Hbk Hframe. unfold copy2. rewrite Hbk.
    rewrite bool_decide_false by (intros E; by apply (backup_path_fresh path)).
    eexists. split; [reflexivity|]. cbn [files trace store emit].
    split; [|by rewrite lookup_insert_eq].
    apply map_eq. intros q. destruct (decide (q = path)) as [->|Hq].
    - rewrite lookup_insert_eq, lookup_insert_ne; [done|].
      intros E. by apply (backup_path_fresh path).
    - rewrite lookup_insert_ne by done. by apply Hframe. }
  rewrite (acp_run path w b Hb). cbv zeta.
  destruct (decode b) as [t|]; [destruct (Nat.eqb (patch t).2 0);
    [|destruct (encode (patch t).1)]|];
    cbn [snd]; apply Hcopy; cbn [files trace store emit];
    rewrite ?lookup_insert; repeat case_decide; subst; try done;
    try (exfalso; by eapply backup_path_fresh);
    intros q Hq; rewrite ?lookup_insert; repeat case_decide; subst; done.
Qed.

(** A patched text still has its anchors, so a second call succeeds as
    well, and its backup replaces the first: after two calls the backup
    holds the text patched once, which is not the original, and the target
    the text patched twice. *)
Theorem second_run_overwrites_backup (path : string) (w : world)
    (b out1 out2 : list Byte.byte) (t : text) :
  files w !! path = Some b → decode b = Some t → occurrences t ≠ [] →
  encode (patch t).1 = Some out1 → decode out1 = Some (patch t).1 →
  encode (patch (patch t).1).1 = Some out2 →
  ∃ w1 w2,
    add_calendar_permissions decode encode path w = (Ret true, w1) ∧
    add_calendar_permissions decode encode path w1 = (Ret true, w2) ∧
    files w2 !! (path +:+ ".backup") = Some out1 ∧ out1 ≠ b ∧
    files w2 !! path = Some out2.
Proof.
  intros Hb Hd Hocc He1 Hd1 He2.
  assert ((patch t).2 ≠ 0) as Hn.
  { rewrite patch_count. by destruct (occurrences t). }
  assert ((patch (patch t).1).2 = (patch t).2) as Hn2.
  { rewrite !patch_scan. cbn [fst snd]. by rewrite scan_patched, hits_restamp. }
  assert (∀ u : text, (patch u).2 ≠ 0 → (patch u).1 ≠ u) as Hchange.
  { intros u Hu E. by apply (patch_same_no_hits u) in E. }
  apply Nat.eqb_neq in Hn as Hn'.
  eexists _, _. split_and!.
  - rewrite (acp_run path w b Hb). cbv zeta. by rewrite Hd, Hn', He1.
  - rewrite (acp_run path _ out1).
    + cbv zeta. rewrite Hd1, Hn2, Hn', He2. reflexivity.
    + cbn [files trace store emit]. by rewrite lookup_insert_eq.
  - cbn [files trace store emit].
    rewrite !(lookup_insert_ne _ path) by apply backup_path_fresh.
    by rewrite lookup_insert_eq.
  - intros ->. rewrite Hd in Hd1. injection Hd1 as E. symmetry in E.
    by apply Hchange in E.
  - cbn [files trace store emit]. by rewrite lookup_insert_eq.
Qed.

(** ** The script *)

(** [main], written out over the outcome of the call. *)
Lemma main_run (w : world) :
  let w0 := emit (Printed ("🔧 Fixing Calendar Permissions for Trendy App"
                           +:+ String nl "")) w in
  main decode encode w
  = match files w !! project_path with
    | None =>
        (Ret 1%Z,
         emit (Printed "   Please run this script from the project root directory.")
           (emit (Printed ("❌ Error: Could not find " +:+ project_path)) w0))
    | Some _ =>
        match add_calendar_permissions decode encode project_path w0 with
        | (Ret true, w') =>
            (Ret 0%Z,
             emit (Printed "   - Rebuild and reinstall the app")
            (emit (Printed "   - Clean build folder again")
            (emit (Printed "   - Delete the app from the simulator/device")
            (emit (Printed (String nl "💡 Tip: If you still don't see the permission dialog:"))
            (emit (Printed "   4. The calendar permission dialog should now appear when importing events")
            (emit (Printed "   3. Build and run the app")
            (emit (Printed "   2. Clean the build folder (Cmd+Shift+K)")
            (emit (Printed "   1. Open trendy.xcodeproj in Xcode")
            (emit (Printed (String nl "📋 Next steps:"))
            (emit (Printed success_line) w'))))))))))
        | (Ret false, w') =>
            (Ret 1%Z,
             emit (Printed "   The backup file has been preserved.")
               (emit (Printed failure_line) w'))
        | (Raise e, w') => (Raise e, w')
        end
    end.
Proof.
  intros w0. subst w0. unfold main, bind, path_exists, print, ret.
  cbn [files trace store emit].
  destruct (files w !! project_path) as [b|] eqn:Hb.
  - rewrite bool_decide_true by eauto. cbn [negb].
    by destruct (add_calendar_permissions _ _ _ _) as [[[|]|e] w'].
  - rewrite bool_decide_false by (by intros [? ?]). done.
Qed.


Ltac not_printed H :=
  repeat (apply elem_of_cons in H as [H|H];
          [cbv [success_line failure_line project_path] in H;
           cbn [String.append] in H; discriminate H|]);
  by apply elem_of_nil in H.

(** What the script prints tells what it did: the success line is among
    its lines exactly when it exits with status 0; and when it prints that
    it failed to add the permissions (and that the backup has been
    preserved), it exits with status 1, the target has the bytes it had
    and the backup holds the same bytes. *)
Theorem printed_lines_tell_the_outcome (w : world) :
  let r := run_script decode encode w in
  (Printed success_line ∈ new_events w r.2 ↔ r.1 = 0%Z) ∧
  (Printed failure_line ∈ new_events w r.2 →
     r.1 = 1%Z ∧
     ∃ b, files w !! project_path = Some b ∧
          files r.2 !! project_path = Some b ∧
          files r.2 !! (project_path +:+ ".backup") = Some b).
Proof.
  intros r. subst r. unfold run_script. rewrite main_run. cbv zeta.
  destruct (files w !! project_path) as [b|] eqn:Hb.
  - rewrite (acp_run project_path _ b) by done. cbv zeta.
    destruct (decode b) as [t|].
    + destruct (Nat.eqb (patch t).2 0).
      * cbn [fst snd exit_status]. split.
        -- split; [|done]. events_since. intros H. not_printed H.
        -- intros _. split; [done|]. exists b. split; [done|].
           cbn [files trace store emit]. rewrite lookup_insert_eq. split; [|done].
           rewrite lookup_insert_ne; [done|]. intros E. by apply (backup_path_fresh project_path).
      * destruct (encode (patch t).1) as [out|]; cbn [fst snd exit_status].
        -- split.
           ++ split; [done|]. intros _. events_since.
              do 9 apply list_elem_of_further. apply list_elem_of_here.
           ++ events_since. intros H. not_printed H.
        -- split.
           ++ split; [|done]. events_since. intros H. not_printed H.
           ++ events_since. intros H. not_printed H.
    + cbn [fst snd exit_status]. split.
      * split; [|done]. events_since. intros H. not_printed H.
      * events_since. intros H. not_printed H.
  - cbn [fst snd exit_status]. split.
    + split; [|done]. events_since. intros H. not_printed H.
    + events_since. intros H. not_printed H.
Qed.

End ScriptExtras.

(** ** The further properties at concrete inputs *)

Lemma patch_anchor_then_rest_witness :
  is_anchor portrait_line ∧
  (patch (portrait_line ++ block_tail)).2 = S (patch block_tail).2.
Proof.
  assert (is_anchor portrait_line) as Ha.
  { exists (T "UIInterfaceOrientationPortrait").
    split_and!; [done | apply (bool_decide_unpack _); by vm_compute | done]. }
  split; [exact Ha|].
  by rewrite (patch_anchor_then_rest portrait_line block_tail Ha).
Defined.

Lemma missing_path_raises_witness :
  files empty_world !! project_path = None ∧
  add_calendar_permissions latin1_decode latin1_encode project_path empty_world
  = (Raise FileNotFoundError, empty_world).
Proof.
  assert (files empty_world !! project_path = None) as H by (by vm_compute).
  split; [exact H|].
  apply (missing_path_raises latin1_decode latin1_encode project_path empty_world H).
Defined.

Lemma read_failure_keeps_target_witness :
  files (project_world accented_block) !! project_path
    = Some (byte_of_ascii <$> accented_block) ∧
  ascii_decode (byte_of_ascii <$> accented_block) = None ∧
  ∃ w', add_calendar_permissions ascii_decode ascii_encode project_path
          (project_world accented_block) = (Raise UnicodeDecodeError, w')
        ∧ files w' !! project_path = Some (byte_of_ascii <$> accented_block).
Proof.
  assert (files (project_world accented_block) !! project_path
          = Some (byte_of_ascii <$> accented_block)) as Hb by (by vm_compute).
  assert (ascii_decode (byte_of_ascii <$> accented_block) = None) as Hd
    by (by vm_compute).
  split_and!; [exact Hb | exact Hd |].
  destruct (read_failure_keeps_target ascii_decode ascii_encode project_path
              (project_world accented_block) _ Hb Hd) as (w' & Hrun & _ & Hfile).
  by exists w'.
Defined.


Lemma success_reports_count_witness :
  files (project_world sample_project) !! project_path
    = Some (byte_of_ascii <$> sample_project) ∧
  latin1_decode (byte_of_ascii <$> sample_project) = Some sample_project ∧
  occurrences sample_project ≠ [] ∧
  ∃ w', add_calendar_permissions latin1_decode latin1_encode project_path
          (project_world sample_project) = (Ret true, w')
        ∧ Printed "✓ Added calendar permissions to 3 build configuration(s)"
          ∈ new_events (project_world sample_project) w'.
Proof.
  assert (files (project_world sample_project) !! project_path
          = Some (byte_of_ascii <$> sample_project)) as Hb by (by vm_compute).
  assert (latin1_decode (byte_of_ascii <$> sample_project) = Some sample_project)
    as Hd by (by vm_compute).
  assert (occurrences sample_project ≠ []) as Hocc by (by vm_compute).
  split_and!; [exact Hb | exact Hd | exact Hocc |].
  destruct (success_reports_count latin1_decode latin1_encode project_path
              (project_world sample_project) _ _ _ Hb Hd Hocc eq_refl)
    as (w' & Hrun & _ & Hline).
  exists w'. split; [exact Hrun|].
  assert (pretty (length (occurrences sample_project)) = "3") as E by (by vm_compute).
  by rewrite E in Hline.
Defined.

Lemma backup_restores_original_witness :
  files (project_world sample_project) !! project_path
    = Some (byte_of_ascii <$> sample_project) ∧
  ∃ w'', copy2 (project_path +:+ ".backup") project_path
           (add_calendar_permissions latin1_decode latin1_encode project_path
              (project_world sample_project)).2 = (Ret tt, w'')
         ∧ files w'' !! project_path = Some (byte_of_ascii <$> sample_project).
Proof.
  assert (files (project_world sample_project) !! project_path
          = Some (byte_of_ascii <$> sample_project)) as Hb by (by vm_compute).
  split; [exact Hb|].
  destruct (backup_restores_original latin1_decode latin1_encode project_path
              (project_world sample_project) _ Hb) as (w'' & Hrun & _ & Hfile).
  by exists w''.
Defined.

Lemma second_run_overwrites_backup_witness :
  files (project_world sample_block) !! project_path
    = Some (byte_of_ascii <$> sample_block) ∧
  latin1_decode (byte_of_ascii <$> sample_block) = Some sample_block ∧
  occurrences sample_block ≠ [] ∧
  latin1_decode (byte_of_ascii <$> (patch sample_block).1)
    = Some (patch sample_block).1 ∧
  ∃ w1 w2, add_calendar_permissions latin1_decode latin1_encode project_path
             (project_world sample_block) = (Ret true, w1)
           ∧ add_calendar_permissions latin1_decode latin1_encode project_path w1
             = (Ret true, w2)
           ∧ files w2 !! (project_path +:+ ".backup")
             = Some (byte_of_ascii <$> (patch sample_block).1).
Proof.
  assert (files (project_world sample_block) !! project_path
          = Some (byte_of_ascii <$> sample_block)) as Hb by (by vm_compute).
  assert (latin1_decode (byte_of_ascii <$> sample_block) = Some sample_block)
    as Hd by (by vm_compute).
  assert (occurrences sample_block ≠ []) as Hocc by (by vm_compute).
  assert (latin1_decode (byte_of_ascii <$> (patch sample_block).1)
          = Some (patch sample_block).1) as Hd1 by (by vm_compute).
  split_and!; [exact Hb | exact Hd | exact Hocc | exact Hd1 |].
  destruct (second_run_overwrites_backup latin1_decode latin1_encode project_path
              (project_world sample_block) _ _ _ _ Hb Hd Hocc eq_refl Hd1 eq_refl)
    as (w1 & w2 & Hrun1 & Hrun2 & Hbk & _).
  by exists w1, w2.
Defined.
